(** * gomap: a Map made safe for concurrent use by a single worker goroutine

    Source: [src/gomap/concurrent.go], which holds two coordinators around a
    (non thread-safe) [Map]:

    - [concurrentMap]: one channel per kind of request, the worker
      [loopMap] selects over all of them;
    - [channelConcurrentMap]: one inbound channel of capacity 1 carrying
      [interface{}] messages, the worker [loopMap] switches on their type,
      and [Close] closes the channel.

    The development has three layers:

    - [GoChan]: what Go's channel operations do (send, receive, close);
    - a small-step semantics of goroutines exchanging messages with one
      worker, parametric in the code of the coordinator;
    - the code of the two coordinators, translated function by function. *)

From Stdlib Require Import ZArith String.
From stdpp Require Import base option list gmap strings.

Local Open Scope Z_scope.
Local Open Scope nat_scope.

(** ** Go channels *)

Module GoChan.

(** A channel made by [make(chan A, cap)]: its capacity, the values that are
    buffered (oldest first) and whether [close] was called on it. *)
Record chan (A : Type) := Chan { cap : nat; buf : list A; closed : bool }.
Arguments Chan {A} _ _ _.
Arguments cap {A} _.
Arguments buf {A} _.
Arguments closed {A} _.

Definition make {A : Type} (n : nat) : chan A := Chan n [] false.

Inductive send_result (A : Type) :=
| Sent (c : chan A)
| SendBlocks
| SendPanics.
Arguments Sent {A} _.
Arguments SendBlocks {A}.
Arguments SendPanics {A}.

(** [ch <- x]. On a closed channel it panics; with room in the buffer the value
    is buffered; otherwise the sender blocks, until a receiver takes the value
    from its hands. *)
Definition send {A : Type} (x : A) (c : chan A) : send_result A :=
  if closed c then SendPanics
  else if decide (length (buf c) < cap c) then Sent (Chan (cap c) (buf c ++ [x]) false)
  else SendBlocks.

Inductive recv_result (A : Type) :=
| Received (x : A) (c : chan A)
| RecvClosed
| RecvBlocks.
Arguments Received {A} _ _.
Arguments RecvClosed {A}.
Arguments RecvBlocks {A}.

(** [x, ok := <-ch]. Buffered values are delivered first, also after [close];
    an empty closed channel yields [ok = false]; an empty open channel blocks. *)
Definition recv {A : Type} (c : chan A) : recv_result A :=
  match buf c with
  | x :: rest => Received x (Chan (cap c) rest (closed c))
  | [] => if closed c then RecvClosed else RecvBlocks
  end.

(** [close(ch)]: [None] is the panic of closing a closed channel. *)
Definition close {A : Type} (c : chan A) : option (chan A) :=
  if closed c then None else Some (Chan (cap c) (buf c) true).

Definition send_on_closed : string := "send on closed channel".
Definition close_of_closed : string := "close of closed channel".

End GoChan.

(** ** Goroutines around one worker *)

(** Reply channels are made at run time; they are named by the order of their
    creation. *)
Definition chan_id := nat.

Inductive task :=
| Worker
| Caller (i : nat).

(** What one iteration of a worker loop does with the message it received:
    it sends [v] on [ch] (leaving the coordinator struct [cm] and the memory
    [h] behind), or it panics. *)
Inductive outcome (S H R : Type) :=
| Reply (cm : S) (h : H) (ch : chan_id) (v : R)
| Panic (diag : string).
Arguments Reply {S H R} _ _ _ _.
Arguments Panic {S H R} _.

(** The code of a coordinator, as far as the runtime needs it. *)
Record coordinator := Coordinator {
  self_t : Type;     (* the coordinator struct *)
  heap_t : Type;     (* the memory the Map's methods read and write *)
  request : Type;    (* what travels on the inbound channel(s) *)
  reply : Type;      (* what travels on the reply channels *)
  call : Type;       (* a call of a method of the coordinator, with its arguments *)
  result : Type;     (* what such a call returns *)
  (* the caller's side of a method: the request it sends, given the reply
     channel it has just made, and what it returns from what it receives *)
  request_of : call → chan_id → request;
  result_of : call → reply → result;
  (* the reply channel embedded in a request *)
  reply_chan : request → option chan_id;
  (* the body of the worker's loop *)
  loop_body : self_t → heap_t → request → outcome self_t heap_t reply;
  (* whether the loop tests [ok] on receive and returns when it is false *)
  exits_on_close : bool
}.

Section Runtime.
Variable V : coordinator.

(** What a caller goroutine does next: a method call, or [Close()]. *)
Inductive op :=
| Request (k : call V)
| Close.

(** Where a caller stands inside the method it is executing:
    [Ready] before the call, [Made ch] after [ch := make(chan T, 0)],
    [Waiting ch] after the send of the request, blocked in [<-ch]. *)
Inductive pc :=
| Ready
| Made (ch : chan_id)
| Waiting (ch : chan_id).

Record caller := MkCaller {
  todo : list op;
  returned : list (result V);
  at_ : pc
}.

(** Where the worker stands in [loopMap]: blocked in the receive, holding a
    received message [x], blocked in the send of [v] on [ch] (with [x] still in
    scope), or returned. *)
Inductive worker :=
| Idle
| Running (x : request V)
| Replying (x : request V) (ch : chan_id) (v : reply V)
| Returned.

Record state := State {
  self : self_t V;
  mem : heap_t V;
  inbound : GoChan.chan (request V);
  wk : worker;
  callers : list caller;
  next_chan : chan_id;
  aborted : option string
}.

Inductive action :=
| AMake (ch : chan_id) (capacity : nat)
| ASend (x : request V)
| ARecv (x : request V)
| AExec (x : request V) (h : heap_t V)
| AReply (ch : chan_id) (v : reply V)
| AReturn (k : call V) (ch : chan_id) (r : result V)
| AClose
| AExit
| APanic (diag : string).

Record event := Ev { actor : task; act : action }.

Definition set_caller (st : state) (i : nat) (c : caller) : list caller :=
  <[i := c]> (callers st).

(** One step of one goroutine (two for a hand-over on an unbuffered channel).
    A panic aborts the process: no step follows it. *)
Inductive step : state → list event → state → Prop :=
| step_make st i c k rest :
    aborted st = None →
    callers st !! i = Some c → at_ c = Ready → todo c = Request k :: rest →
    step st [Ev (Caller i) (AMake (next_chan st) 0)]
      (State (self st) (mem st) (inbound st) (wk st)
         (set_caller st i (MkCaller (todo c) (returned c) (Made (next_chan st))))
         (S (next_chan st)) None)
| step_handoff st i c k rest ch :
    aborted st = None →
    callers st !! i = Some c → at_ c = Made ch → todo c = Request k :: rest →
    GoChan.send (request_of V k ch) (inbound st) = GoChan.SendBlocks →
    GoChan.buf (inbound st) = [] → wk st = Idle →
    step st [Ev (Caller i) (ASend (request_of V k ch)); Ev Worker (ARecv (request_of V k ch))]
      (State (self st) (mem st) (inbound st) (Running (request_of V k ch))
         (set_caller st i (MkCaller (todo c) (returned c) (Waiting ch)))
         (next_chan st) None)
| step_enqueue st i c k rest ch q :
    aborted st = None →
    callers st !! i = Some c → at_ c = Made ch → todo c = Request k :: rest →
    GoChan.send (request_of V k ch) (inbound st) = GoChan.Sent q →
    step st [Ev (Caller i) (ASend (request_of V k ch))]
      (State (self st) (mem st) q (wk st)
         (set_caller st i (MkCaller (todo c) (returned c) (Waiting ch)))
         (next_chan st) None)
| step_send_closed st i c k rest ch :
    aborted st = None →
    callers st !! i = Some c → at_ c = Made ch → todo c = Request k :: rest →
    GoChan.send (request_of V k ch) (inbound st) = GoChan.SendPanics →
    step st [Ev (Caller i) (APanic GoChan.send_on_closed)]
      (State (self st) (mem st) (inbound st) (wk st) (callers st) (next_chan st)
         (Some GoChan.send_on_closed))
| step_dequeue st x q :
    aborted st = None →
    wk st = Idle → GoChan.recv (inbound st) = GoChan.Received x q →
    step st [Ev Worker (ARecv x)]
      (State (self st) (mem st) q (Running x) (callers st) (next_chan st) None)
| step_exit st :
    aborted st = None →
    wk st = Idle → GoChan.recv (inbound st) = GoChan.RecvClosed →
    exits_on_close V = true →
    step st [Ev Worker AExit]
      (State (self st) (mem st) (inbound st) Returned (callers st) (next_chan st) None)
| step_exec st x cm h ch v :
    aborted st = None →
    wk st = Running x → loop_body V (self st) (mem st) x = Reply cm h ch v →
    step st [Ev Worker (AExec x (mem st))]
      (State cm h (inbound st) (Replying x ch v) (callers st) (next_chan st) None)
| step_exec_panic st x diag :
    aborted st = None →
    wk st = Running x → loop_body V (self st) (mem st) x = Panic diag →
    step st [Ev Worker (AExec x (mem st)); Ev Worker (APanic diag)]
      (State (self st) (mem st) (inbound st) (wk st) (callers st) (next_chan st)
         (Some diag))
| step_reply st i c k rest x ch v :
    aborted st = None →
    wk st = Replying x ch v →
    callers st !! i = Some c → at_ c = Waiting ch → todo c = Request k :: rest →
    step st [Ev Worker (AReply ch v); Ev (Caller i) (AReturn k ch (result_of V k v))]
      (State (self st) (mem st) (inbound st) Idle
         (set_caller st i (MkCaller rest (returned c ++ [result_of V k v]) Ready))
         (next_chan st) None)
| step_close st i c rest q :
    aborted st = None →
    callers st !! i = Some c → at_ c = Ready → todo c = Close :: rest →
    GoChan.close (inbound st) = Some q →
    step st [Ev (Caller i) AClose]
      (State (self st) (mem st) q (wk st)
         (set_caller st i (MkCaller rest (returned c) Ready))
         (next_chan st) None)
| step_close_closed st i c rest :
    aborted st = None →
    callers st !! i = Some c → at_ c = Ready → todo c = Close :: rest →
    GoChan.close (inbound st) = None →
    step st [Ev (Caller i) (APanic GoChan.close_of_closed)]
      (State (self st) (mem st) (inbound st) (wk st) (callers st) (next_chan st)
         (Some GoChan.close_of_closed)).

(** Executions, with the events in the order they happened. *)
Inductive steps : state → list event → state → Prop :=
| steps_refl st : steps st [] st
| steps_snoc st tr st' evs st'' :
    steps st tr st' → step st' evs st'' → steps st (tr ++ evs) st''.

(** The same step as a function of the goroutine that moves: a hand-over and
    the delivery of a reply are attributed to the caller that takes part. *)
Definition fire (t : task) (st : state) : option (list event * state) :=
  match aborted st with
  | Some _ => None
  | None =>
    match t with
    | Worker =>
      match wk st with
      | Idle =>
        match GoChan.recv (inbound st) with
        | GoChan.Received x q =>
          Some ([Ev Worker (ARecv x)],
                State (self st) (mem st) q (Running x) (callers st) (next_chan st) None)
        | GoChan.RecvClosed =>
          if exits_on_close V
          then Some ([Ev Worker AExit],
                     State (self st) (mem st) (inbound st) Returned (callers st)
                       (next_chan st) None)
          else None
        | GoChan.RecvBlocks => None
        end
      | Running x =>
        match loop_body V (self st) (mem st) x with
        | Reply cm h ch v =>
          Some ([Ev Worker (AExec x (mem st))],
                State cm h (inbound st) (Replying x ch v) (callers st) (next_chan st) None)
        | Panic diag =>
          Some ([Ev Worker (AExec x (mem st)); Ev Worker (APanic diag)],
                State (self st) (mem st) (inbound st) (wk st) (callers st) (next_chan st)
                  (Some diag))
        end
      | Replying _ _ _ => None
      | Returned => None
      end
    | Caller i =>
      match callers st !! i with
      | None => None
      | Some c =>
        match at_ c, todo c with
        | Ready, Request k :: _ =>
          Some ([Ev (Caller i) (AMake (next_chan st) 0)],
                State (self st) (mem st) (inbound st) (wk st)
                  (set_caller st i (MkCaller (todo c) (returned c) (Made (next_chan st))))
                  (S (next_chan st)) None)
        | Ready, Close :: rest =>
          match GoChan.close (inbound st) with
          | Some q =>
            Some ([Ev (Caller i) AClose],
                  State (self st) (mem st) q (wk st)
                    (set_caller st i (MkCaller rest (returned c) Ready))
                    (next_chan st) None)
          | None =>
            Some ([Ev (Caller i) (APanic GoChan.close_of_closed)],
                  State (self st) (mem st) (inbound st) (wk st) (callers st) (next_chan st)
                    (Some GoChan.close_of_closed))
          end
        | Made ch, Request k :: _ =>
          match GoChan.send (request_of V k ch) (inbound st) with
          | GoChan.Sent q =>
            Some ([Ev (Caller i) (ASend (request_of V k ch))],
                  State (self st) (mem st) q (wk st)
                    (set_caller st i (MkCaller (todo c) (returned c) (Waiting ch)))
                    (next_chan st) None)
          | GoChan.SendPanics =>
            Some ([Ev (Caller i) (APanic GoChan.send_on_closed)],
                  State (self st) (mem st) (inbound st) (wk st) (callers st) (next_chan st)
                    (Some GoChan.send_on_closed))
          | GoChan.SendBlocks =>
            match wk st, GoChan.buf (inbound st) with
            | Idle, [] =>
              Some ([Ev (Caller i) (ASend (request_of V k ch));
                     Ev Worker (ARecv (request_of V k ch))],
                    State (self st) (mem st) (inbound st) (Running (request_of V k ch))
                      (set_caller st i (MkCaller (todo c) (returned c) (Waiting ch)))
                      (next_chan st) None)
            | _, _ => None
            end
          end
        | Waiting ch, Request k :: rest =>
          match wk st with
          | Replying x ch' v =>
            if decide (ch' = ch)
            then Some ([Ev Worker (AReply ch v); Ev (Caller i) (AReturn k ch (result_of V k v))],
                       State (self st) (mem st) (inbound st) Idle
                         (set_caller st i
                            (MkCaller rest (returned c ++ [result_of V k v]) Ready))
                         (next_chan st) None)
            else None
          | _ => None
          end
        | _, _ => None
        end
      end
    end
  end.

(** A schedule is the list of the goroutines that move, in order. *)
Fixpoint run (sched : list task) (st : state) : option (list event * state) :=
  match sched with
  | [] => Some ([], st)
  | t :: sched' =>
    match fire t st with
    | None => None
    | Some (evs, st') =>
      match run sched' st' with
      | None => None
      | Some (tr, st'') => Some (evs ++ tr, st'')
      end
    end
  end.

(** The run of a schedule, or no step at all when the schedule cannot run. *)
Definition run_or_stay (sched : list task) (st : state) : list event * state :=
  default ([], st) (run sched st).

(** The state a constructor leaves behind: the worker has been started
    ([go cm.loopMap()]) and blocks in its first receive; every caller is
    about to make its first call; no reply channel exists yet. *)
Definition boot (cm : self_t V) (h : heap_t V) (inbound_cap : nat) (first_chan : chan_id)
    (progs : list (list op)) : state :=
  State cm h (GoChan.make inbound_cap) Idle
    ((λ p, MkCaller p [] Ready) <$> progs) first_chan None.

End Runtime.

Arguments Request {V} _.
Arguments Close {V}.
Arguments MkCaller {V} _ _ _.
Arguments todo {V} _.
Arguments returned {V} _.
Arguments at_ {V} _.
Arguments Idle {V}.
Arguments Running {V} _.
Arguments Replying {V} _ _ _.
Arguments Returned {V}.
Arguments State {V} _ _ _ _ _ _ _.
Arguments self {V} _.
Arguments mem {V} _.
Arguments inbound {V} _.
Arguments wk {V} _.
Arguments callers {V} _.
Arguments next_chan {V} _.
Arguments aborted {V} _.
Arguments AMake {V} _ _.
Arguments ASend {V} _.
Arguments ARecv {V} _.
Arguments AExec {V} _ _.
Arguments AReply {V} _ _.
Arguments AReturn {V} _ _ _.
Arguments AClose {V}.
Arguments AExit {V}.
Arguments APanic {V} _.
Arguments Ev {V} _ _.
Arguments actor {V} _.
Arguments act {V} _.
Arguments set_caller {V} _ _ _.
Arguments step {V} _ _ _.
Arguments steps {V} _ _ _.
Arguments fire {V} _ _.
Arguments run {V} _ _.
Arguments run_or_stay {V} _ _.
Arguments boot {V} _ _ _ _ _.

(** ** The request-typed coordinator: [concurrentMap] *)

Module ConcurrentMap.
Section Code.
(** [Key], [Value] and the interface [Map] are declared outside the file; a
    [Map] is an interface value (a reference to some object) and its methods
    act on the memory that object lives in. [map[Key]Value] is a reference
    too. Go's [int] is rendered by [Z]: the coordinator only passes it on. *)
Context {Key Value Map Storage Heap : Type}.

Record MapMethods := {
  Map_UnderlyingStorage : Map → Heap → Heap * Storage;
  Map_Clear : Map → Heap → Heap;
  Map_Contains : Map → Key → Heap → Heap * bool;
  Map_Delete : Map → Key → Heap → Heap * Z;
  Map_Get : Map → Key → Heap → Heap * (Value * bool);
  Map_Length : Map → Heap → Heap * Z;
  Map_Set : Map → Key → Value → Heap → Heap * Z
}.

Variable M : MapMethods.

Record containsRequest := { cr_key : Key; cr_foundCh : chan_id }.
Record deleteRequest := { dr_key : Key; dr_lenCh : chan_id }.
Record getResult := { element : Value; found : bool }.
Record getRequest := { gr_key : Key; gr_valueCh : chan_id }.
Record setRequest := { sr_key : Key; sr_value : Value; sr_lenCh : chan_id }.

Record concurrentMap := {
  storage : Map;
  accessMapCh : chan_id;
  accessStorageCh : chan_id;
  clearCh : chan_id;
  containsCh : chan_id;
  deleteCh : chan_id;
  lenCh : chan_id;
  getCh : chan_id;
  setCh : chan_id
}.

(** The case of the [select] in [loopMap] that fired, with the value received
    on its channel. A caller that sends on [cm.getCh] offers [on_getCh]. *)
Inductive select_case :=
| on_accessMapCh (ar : chan_id)
| on_accessStorageCh (ar : chan_id)
| on_clearCh (cr : chan_id)
| on_containsCh (cr : containsRequest)
| on_deleteCh (dr : deleteRequest)
| on_lenCh (lr : chan_id)
| on_getCh (gr : getRequest)
| on_setCh (sr : setRequest).

(** The values sent on reply channels, by the element type of the channel. *)
Inductive value :=
| VMap (m : Map)
| VStorage (s : Storage)
| VTrue
| VBool (b : bool)
| VInt (n : Z)
| VGetResult (r : getResult).

(** The body of the [for { select { ... } }] of [loopMap]. *)
Definition loopMap (cm : concurrentMap) (h : Heap) (c : select_case)
    : outcome concurrentMap Heap value :=
  match c with
  | on_accessMapCh ar => Reply cm h ar (VMap (storage cm))
  | on_accessStorageCh ar =>
    let '(h', s) := Map_UnderlyingStorage M (storage cm) h in
    Reply cm h' ar (VStorage s)
  | on_clearCh cr =>
    let h' := Map_Clear M (storage cm) h in
    Reply cm h' cr VTrue
  | on_containsCh cr =>
    let '(h', b) := Map_Contains M (storage cm) (cr_key cr) h in
    Reply cm h' (cr_foundCh cr) (VBool b)
  | on_deleteCh dr =>
    let '(h', n) := Map_Delete M (storage cm) (dr_key dr) h in
    Reply cm h' (dr_lenCh dr) (VInt n)
  | on_lenCh lr =>
    let '(h', n) := Map_Length M (storage cm) h in
    Reply cm h' lr (VInt n)
  | on_getCh gr =>
    let '(h', (element, found)) := Map_Get M (storage cm) (gr_key gr) h in
    Reply cm h' (gr_valueCh gr) (VGetResult {| element := element; found := found |})
  | on_setCh sr =>
    let '(h', n) := Map_Set M (storage cm) (sr_key sr) (sr_value sr) h in
    Reply cm h' (sr_lenCh sr) (VInt n)
  end.

(** The synchronous methods. [IsEmpty] is [cm.Length() == 0]. Each [XAsync]
    method starts a goroutine that makes the call [X]: one more caller. *)
Inductive method :=
| UnderlyingMap
| UnderlyingStorage
| Clear
| Contains (key : Key)
| Delete (key : Key)
| Get (key : Key)
| IsEmpty
| Length
| Set_ (key : Key) (value : Value).

Inductive ret :=
| RetMap (m : Map)
| RetStorage (s : Storage)
| RetVoid
| RetBool (b : bool)
| RetInt (n : Z)
| RetGet (v : Value) (found : bool).

(** What a method sends, and on which channel, once it has made its reply
    channel [ch]. *)
Definition send_of (k : method) (ch : chan_id) : select_case :=
  match k with
  | UnderlyingMap => on_accessMapCh ch
  | UnderlyingStorage => on_accessStorageCh ch
  | Clear => on_clearCh ch
  | Contains key => on_containsCh {| cr_key := key; cr_foundCh := ch |}
  | Delete key => on_deleteCh {| dr_key := key; dr_lenCh := ch |}
  | Get key => on_getCh {| gr_key := key; gr_valueCh := ch |}
  | IsEmpty => on_lenCh ch
  | Length => on_lenCh ch
  | Set_ key value => on_setCh {| sr_key := key; sr_value := value; sr_lenCh := ch |}
  end.

(** What a method returns from the value it receives on its reply channel. *)
Definition return_of (k : method) (v : value) : ret :=
  match v with
  | VMap m => RetMap m
  | VStorage s => RetStorage s
  | VTrue => RetVoid
  | VBool b => RetBool b
  | VInt n =>
    match k with
    | IsEmpty => RetBool (n =? 0)%Z
    | _ => RetInt n
    end
  | VGetResult result => RetGet (element result) (found result)
  end.

Definition reply_channel (c : select_case) : option chan_id :=
  match c with
  | on_accessMapCh ar => Some ar
  | on_accessStorageCh ar => Some ar
  | on_clearCh cr => Some cr
  | on_containsCh cr => Some (cr_foundCh cr)
  | on_deleteCh dr => Some (dr_lenCh dr)
  | on_lenCh lr => Some lr
  | on_getCh gr => Some (gr_valueCh gr)
  | on_setCh sr => Some (sr_lenCh sr)
  end.

(** [loopMap] never tests for a closed channel (and nothing closes one). *)
Definition code : coordinator :=
  {| self_t := concurrentMap; heap_t := Heap;
     request := select_case; reply := value; call := method; result := ret;
     request_of := send_of; result_of := return_of;
     reply_chan := reply_channel; loop_body := loopMap;
     exits_on_close := false |}.

(** [NewConcurrentMap(storage)]: eight unbuffered channels, then
    [go cm.loopMap()]. The eight channels behave as one rendezvous point on
    which the worker takes whichever request is offered. *)
Definition NewConcurrentMap_struct (storage : Map) : concurrentMap :=
  {| storage := storage;
     accessMapCh := 0; accessStorageCh := 1; clearCh := 2; containsCh := 3;
     deleteCh := 4; lenCh := 5; getCh := 6; setCh := 7 |}.

Definition NewConcurrentMap (storage : Map) (h : Heap) (progs : list (list method))
    : state code :=
  boot (V := code) (NewConcurrentMap_struct storage) h 0 8
    (fmap (M := list) (fmap (M := list) (λ k : method, Request (V := code) k)) progs).

(** The same methods called on the Map itself, from one goroutine. *)
Definition direct (cm : concurrentMap) (k : method) (h : Heap) : Heap * ret :=
  match k with
  | UnderlyingMap => (h, RetMap (storage cm))
  | UnderlyingStorage =>
    let '(h', s) := Map_UnderlyingStorage M (storage cm) h in (h', RetStorage s)
  | Clear => (Map_Clear M (storage cm) h, RetVoid)
  | Contains key =>
    let '(h', b) := Map_Contains M (storage cm) key h in (h', RetBool b)
  | Delete key =>
    let '(h', n) := Map_Delete M (storage cm) key h in (h', RetInt n)
  | Get key =>
    let '(h', (element, found)) := Map_Get M (storage cm) key h in (h', RetGet element found)
  | IsEmpty =>
    let '(h', n) := Map_Length M (storage cm) h in (h', RetBool (n =? 0)%Z)
  | Length =>
    let '(h', n) := Map_Length M (storage cm) h in (h', RetInt n)
  | Set_ key value =>
    let '(h', n) := Map_Set M (storage cm) key value h in (h', RetInt n)
  end.

Definition is_set_get_delete (k : method) : bool :=
  match k with
  | Set_ _ _ | Get _ | Delete _ => true
  | _ => false
  end.

End Code.
Arguments MapMethods : clear implicits.
Arguments concurrentMap : clear implicits.
Arguments select_case : clear implicits.
Arguments value : clear implicits.
Arguments method : clear implicits.
Arguments ret : clear implicits.
Arguments getResult : clear implicits.
End ConcurrentMap.

(** ** The uniform-message coordinator: [channelConcurrentMap] *)

Module ChannelConcurrentMap.
Section Code.
(** Keys and values are [interface{}] here: one type [Any]. *)
Context {Any Map Heap : Type}.

Record MapMethods := {
  Map_Clear : Map → Heap → Heap;
  Map_Contains : Map → Any → Heap → Heap * bool;
  Map_Delete : Map → Any → Heap → Heap * (Any * bool);
  Map_Get : Map → Any → Heap → Heap * (Any * bool);
  Map_Length : Map → Heap → Heap * Z;
  Map_Keys : Map → Heap → Heap * list Any;
  Map_Set : Map → Any → Any → Heap → Heap * (Any * bool);
  (* fmt.Sprint of the map *)
  Map_Sprint : Map → Heap → Heap * string
}.

Variable M : MapMethods.

Record channelConcurrentMap := {
  storage : Map;
  requestCh : chan_id
}.

(** A value of type [interface{}] received on [requestCh], by its dynamic
    type: a pointer to one of the eight request structs, or anything else,
    [ty] being what [reflect.TypeOf] prints for it. *)
Inductive message :=
| clearRequest (doneCh : chan_id)
| containsRequest (key : Any) (foundCh : chan_id)
| deleteRequest (key : Any) (resultCh : chan_id)
| getRequest (key : Any) (valueCh : chan_id)
| lenRequest (lenCh : chan_id)
| keysRequest (keysCh : chan_id)
| setRequest (key : Any) (value : Any) (lenCh : chan_id)
| stringRequest (strCh : chan_id)
| otherType (ty : string).

Record deleteResult := { prev : Any; dr_found : bool }.
Record getResult := { gr_element : Any; gr_found : bool }.
Record setResult := { sr_element : Any; sr_found : bool }.

Inductive value :=
| VTrue
| VBool (b : bool)
| VDeleteResult (r : deleteResult)
| VGetResult (r : getResult)
| VInt (n : Z)
| VKeys (keys : list Any)
| VSetResult (r : setResult)
| VString (s : string).

Definition unrecognized (ty : string) : string :=
  String.append "Unrecognized req type " ty.

(** The [switch request := request.(type)] of [loopMap]. *)
Definition loopMap (ccm : channelConcurrentMap) (h : Heap) (request : message)
    : outcome channelConcurrentMap Heap value :=
  match request with
  | clearRequest doneCh =>
    let h' := Map_Clear M (storage ccm) h in
    Reply ccm h' doneCh VTrue
  | containsRequest key foundCh =>
    let '(h', b) := Map_Contains M (storage ccm) key h in
    Reply ccm h' foundCh (VBool b)
  | deleteRequest key resultCh =>
    let '(h', (prev, found)) := Map_Delete M (storage ccm) key h in
    Reply ccm h' resultCh (VDeleteResult {| prev := prev; dr_found := found |})
  | getRequest key valueCh =>
    let '(h', (element, found)) := Map_Get M (storage ccm) key h in
    Reply ccm h' valueCh (VGetResult {| gr_element := element; gr_found := found |})
  | lenRequest lenCh =>
    let '(h', n) := Map_Length M (storage ccm) h in
    Reply ccm h' lenCh (VInt n)
  | keysRequest keysCh =>
    let '(h', keys) := Map_Keys M (storage ccm) h in
    Reply ccm h' keysCh (VKeys keys)
  | setRequest key value lenCh =>
    let '(h', (element, found)) := Map_Set M (storage ccm) key value h in
    Reply ccm h' lenCh (VSetResult {| sr_element := element; sr_found := found |})
  | stringRequest strCh =>
    let '(h', s) := Map_Sprint M (storage ccm) h in
    Reply ccm h' strCh (VString s)
  | otherType ty => Panic (unrecognized ty)
  end.

(** The request types the switch names. *)
Definition recognized (request : message) : bool :=
  match request with
  | otherType _ => false
  | _ => true
  end.

Inductive method :=
| String_
| Clear
| Contains (key : Any)
| Delete (key : Any)
| Get (key : Any)
| Length
| Keys
| Set_ (key : Any) (value : Any).

Inductive ret :=
| RetVoid
| RetBool (b : bool)
| RetPair (v : Any) (found : bool)
| RetInt (n : Z)
| RetKeys (keys : list Any)
| RetString (s : string).

Definition send_of (k : method) (ch : chan_id) : message :=
  match k with
  | String_ => stringRequest ch
  | Clear => clearRequest ch
  | Contains key => containsRequest key ch
  | Delete key => deleteRequest key ch
  | Get key => getRequest key ch
  | Length => lenRequest ch
  | Keys => keysRequest ch
  | Set_ key value => setRequest key value ch
  end.

Definition return_of (k : method) (v : value) : ret :=
  match v with
  | VTrue => RetVoid
  | VBool b => RetBool b
  | VDeleteResult result => RetPair (prev result) (dr_found result)
  | VGetResult result => RetPair (gr_element result) (gr_found result)
  | VInt n => RetInt n
  | VKeys keys => RetKeys keys
  | VSetResult result => RetPair (sr_element result) (sr_found result)
  | VString s => RetString s
  end.

Definition reply_channel (request : message) : option chan_id :=
  match request with
  | clearRequest ch | containsRequest _ ch | deleteRequest _ ch | getRequest _ ch
  | lenRequest ch | keysRequest ch | setRequest _ _ ch | stringRequest ch => Some ch
  | otherType _ => None
  end.

(** [loopMap] receives with [request, ok := <-ccm.requestCh] and returns
    when [ok] is false. *)
Definition code : coordinator :=
  {| self_t := channelConcurrentMap; heap_t := Heap;
     request := message; reply := value; call := method; result := ret;
     request_of := send_of; result_of := return_of;
     reply_chan := reply_channel; loop_body := loopMap;
     exits_on_close := true |}.

(** [NewChannelConcurrentMap(storage)]: [make(chan interface{}, 1)], then
    [go cm.loopMap()]. *)
Definition NewChannelConcurrentMap_struct (storage : Map) : channelConcurrentMap :=
  {| storage := storage; requestCh := 0 |}.

Definition NewChannelConcurrentMap (storage : Map) (h : Heap) (progs : list (list (op code)))
    : state code :=
  boot (V := code) (NewChannelConcurrentMap_struct storage) h 1 1 progs.

(** [Close()] is [close(ccm.requestCh)]. *)
Definition Close_ (q : GoChan.chan message) : option (GoChan.chan message) :=
  GoChan.close q.

(** The same methods called on the Map itself, from one goroutine. *)
Definition direct (ccm : channelConcurrentMap) (k : method) (h : Heap) : Heap * ret :=
  match k with
  | String_ =>
    let '(h', s) := Map_Sprint M (storage ccm) h in (h', RetString s)
  | Clear => (Map_Clear M (storage ccm) h, RetVoid)
  | Contains key =>
    let '(h', b) := Map_Contains M (storage ccm) key h in (h', RetBool b)
  | Delete key =>
    let '(h', (prev, found)) := Map_Delete M (storage ccm) key h in (h', RetPair prev found)
  | Get key =>
    let '(h', (element, found)) := Map_Get M (storage ccm) key h in (h', RetPair element found)
  | Length =>
    let '(h', n) := Map_Length M (storage ccm) h in (h', RetInt n)
  | Keys =>
    let '(h', keys) := Map_Keys M (storage ccm) h in (h', RetKeys keys)
  | Set_ key value =>
    let '(h', (element, found)) := Map_Set M (storage ccm) key value h in
    (h', RetPair element found)
  end.

Definition is_set_get_delete (k : method) : bool :=
  match k with
  | Set_ _ _ | Get _ | Delete _ => true
  | _ => false
  end.

End Code.
Arguments MapMethods : clear implicits.
Arguments channelConcurrentMap : clear implicits.
Arguments message : clear implicits.
Arguments value : clear implicits.
Arguments method : clear implicits.
Arguments ret : clear implicits.
End ChannelConcurrentMap.

(** ** What is observed of executions and states *)

Section Observations.
Context {V : coordinator}.

(** The reply channel an event makes, sends in a request, receives in a
    request, or writes to. *)
Definition made_chan (e : event V) : option chan_id :=
  match act e with AMake ch _ => Some ch | _ => None end.
Definition sent_chan (e : event V) : option chan_id :=
  match act e with ASend x => reply_chan V x | _ => None end.
Definition received_chan (e : event V) : option chan_id :=
  match act e with ARecv x => reply_chan V x | _ => None end.
Definition replied_chan (e : event V) : option chan_id :=
  match act e with AReply ch _ => Some ch | _ => None end.

Definition is_reply (e : event V) : bool :=
  match act e with AReply _ _ => true | _ => false end.

(** The reply channel a caller holds, before and after it has sent it. *)
Definition held_made (c : caller V) : option chan_id :=
  match at_ c with Made ch => Some ch | _ => None end.
Definition held_waiting (c : caller V) : option chan_id :=
  match at_ c with Waiting ch => Some ch | _ => None end.

(** The request the worker is serving, and all requests sent and not yet
    answered. *)
Definition serving (w : worker V) : list (request V) :=
  match w with
  | Running x | Replying x _ _ => [x]
  | Idle | Returned => []
  end.
Definition in_flight (st : state V) : list (request V) :=
  serving (wk st) ++ GoChan.buf (inbound st).

(** The calls of a program that makes no [Close()]. *)
Definition calls (ks : list (call V)) : list (op V) := Request <$> ks.

End Observations.

(** Using the Map from one goroutine, with no coordinator in between. *)
Section Direct.
Context {V : coordinator}.
Variable direct : self_t V → call V → heap_t V → heap_t V * result V.

Fixpoint direct_run (cm : self_t V) (ks : list (call V)) (h : heap_t V)
    : heap_t V * list (result V) :=
  match ks with
  | [] => (h, [])
  | k :: ks' =>
    let '(h', r) := direct cm k h in
    let '(h'', rs) := direct_run cm ks' h' in
    (h'', r :: rs)
  end.
End Direct.

(** A reference single-threaded map: a state and what each call does to it. *)
Fixpoint reference_run {R K T : Type} (apply : K → R → R * T) (ks : list K) (r : R)
    : list T :=
  match ks with
  | [] => []
  | k :: ks' => let '(r', t) := apply k r in t :: reference_run apply ks' r'
  end.

(** ** A Map to run the coordinators on *)

Module BasicMap.
Section Maps.
Context `{Countable K} {T : Type}.
Variable zero : T.

(** Modelled from the spec: the underlying Map, whose implementation is not in
    the source file ("opaque mutable container of Key→Value entries, unique
    keys", "the raw underlying map/storage"). The object holds one Go map;
    the memory is the list of the Go maps allocated so far, a reference is an
    index into it. *)
Definition contents (ref : nat) (h : list (gmap K T)) : gmap K T :=
  default ∅ (h !! ref).

Definition Clear (m : nat) (h : list (gmap K T)) : list (gmap K T) :=
  <[m := ∅]> h.
Definition Contains (m : nat) (key : K) (h : list (gmap K T)) : list (gmap K T) * bool :=
  (h, bool_decide (is_Some (contents m h !! key))).
Definition Get (m : nat) (key : K) (h : list (gmap K T)) : list (gmap K T) * (T * bool) :=
  (h, match contents m h !! key with Some v => (v, true) | None => (zero, false) end).
Definition Length (m : nat) (h : list (gmap K T)) : list (gmap K T) * Z :=
  (h, Z.of_nat (size (contents m h))).
Definition Keys (m : nat) (h : list (gmap K T)) : list (gmap K T) * list K :=
  (h, (map_to_list (contents m h)).*1).

(** The request-typed coordinator's Map: [Delete] and [Set] return the new
    length, [UnderlyingStorage] returns the Go map the object holds. *)
Definition UnderlyingStorage (m : nat) (h : list (gmap K T)) : list (gmap K T) * nat :=
  (h, m).
Definition Delete_len (m : nat) (key : K) (h : list (gmap K T)) : list (gmap K T) * Z :=
  let s := delete key (contents m h) in (<[m := s]> h, Z.of_nat (size s)).
Definition Set_len (m : nat) (key : K) (v : T) (h : list (gmap K T)) : list (gmap K T) * Z :=
  let s := <[key := v]> (contents m h) in (<[m := s]> h, Z.of_nat (size s)).

(** The uniform-message coordinator's Map: [Delete] and [Set] return the
    previous value and whether there was one. *)
Definition Delete_prev (m : nat) (key : K) (h : list (gmap K T))
    : list (gmap K T) * (T * bool) :=
  (<[m := delete key (contents m h)]> h,
   match contents m h !! key with Some v => (v, true) | None => (zero, false) end).
Definition Set_prev (m : nat) (key : K) (v : T) (h : list (gmap K T))
    : list (gmap K T) * (T * bool) :=
  (<[m := <[key := v]> (contents m h)]> h,
   match contents m h !! key with Some v => (v, true) | None => (zero, false) end).
Definition Sprint (m : nat) (h : list (gmap K T)) : list (gmap K T) * string :=
  (h, if decide (size (contents m h) = 0) then "map[]"%string else "map[...]"%string).

Definition typed : ConcurrentMap.MapMethods K T nat nat (list (gmap K T)) :=
  {| ConcurrentMap.Map_UnderlyingStorage := UnderlyingStorage;
     ConcurrentMap.Map_Clear := Clear;
     ConcurrentMap.Map_Contains := Contains;
     ConcurrentMap.Map_Delete := Delete_len;
     ConcurrentMap.Map_Get := Get;
     ConcurrentMap.Map_Length := Length;
     ConcurrentMap.Map_Set := Set_len |}.

End Maps.

Section Uniform.
Context `{Countable K}.
Variable zero : K.

Definition uniform : ChannelConcurrentMap.MapMethods K nat (list (gmap K K)) :=
  {| ChannelConcurrentMap.Map_Clear := Clear;
     ChannelConcurrentMap.Map_Contains := Contains;
     ChannelConcurrentMap.Map_Delete := Delete_prev zero;
     ChannelConcurrentMap.Map_Get := Get zero;
     ChannelConcurrentMap.Map_Length := Length;
     ChannelConcurrentMap.Map_Keys := Keys;
     ChannelConcurrentMap.Map_Set := Set_prev zero;
     ChannelConcurrentMap.Map_Sprint := Sprint |}.
End Uniform.

End BasicMap.

(** ** What the code of a coordinator must satisfy, and what then holds of
    every execution *)

Section Invariant.
Context {V : coordinator}.

(** A request built by a method carries the reply channel it was given; the
    loop body replies on the channel of the request it serves and leaves the
    coordinator struct as it was. *)
Record well_formed : Prop := {
  wf_request_chan : ∀ k ch, reply_chan V (request_of V k ch) = Some ch;
  wf_reply_chan : ∀ cm h x cm' h' ch v,
    loop_body V cm h x = Reply cm' h' ch v → reply_chan V x = Some ch;
  wf_self : ∀ cm h x cm' h' ch v,
    loop_body V cm h x = Reply cm' h' ch v → cm' = cm
}.

(** Serving the request of a call through the loop body does to the memory,
    and returns to the caller, what the direct call does. *)
Definition serves (direct : self_t V → call V → heap_t V → heap_t V * result V) : Prop :=
  ∀ cm h k ch, ∃ v,
    loop_body V cm h (request_of V k ch) = Reply cm (direct cm k h).1 ch v
    ∧ result_of V k v = (direct cm k h).2.

(** A caller that has made its reply channel is inside a method call; once it
    has sent it, its request is on its way or being served. *)
Definition caller_ok (st : state V) (c : caller V) : Prop :=
  match at_ c with
  | Ready => True
  | Made _ => ∃ k rest, todo c = Request k :: rest
  | Waiting ch => ∃ k rest, todo c = Request k :: rest ∧ request_of V k ch ∈ in_flight st
  end.

(** The life of reply channels, read off the events [tr] that led to [st]
    from a state where the next channel to be made was [c0] and the coordinator
    struct was [cm0]. *)
Record invariant (c0 : chan_id) (cm0 : self_t V) (tr : list (event V)) (st : state V)
    : Prop := {
  inv_made : omap made_chan tr = seq c0 (next_chan st - c0);
  inv_next : c0 ≤ next_chan st;
  inv_fresh : omap made_chan tr ≡ₚ omap sent_chan tr ++ omap held_made (callers st);
  inv_sent :
    omap sent_chan tr
    = omap received_chan tr ++ omap (reply_chan V) (GoChan.buf (inbound st));
  inv_received :
    omap received_chan tr
    = omap replied_chan tr ++ omap (reply_chan V) (serving (wk st));
  inv_waiting :
    omap held_waiting (callers st) ≡ₚ omap (reply_chan V) (in_flight st);
  inv_replying : ∀ x ch v,
    wk st = Replying x ch v →
    ∃ h cm h', Ev Worker (AExec x h) ∈ tr ∧ loop_body V cm0 h x = Reply cm h' ch v;
  inv_callers : ∀ i c, callers st !! i = Some c → caller_ok st c;
  inv_self : self st = cm0;
  inv_returns : ∀ i k ch r,
    Ev (Caller i) (AReturn k ch r) ∈ tr →
    ∃ h cm h' v,
      Ev Worker (AExec (request_of V k ch) h) ∈ tr
      ∧ loop_body V cm0 h (request_of V k ch) = Reply cm h' ch v
      ∧ r = result_of V k v;
  inv_exit :
    wk st = Returned →
    GoChan.closed (inbound st) = true ∧ GoChan.buf (inbound st) = [];
  inv_flight : ∀ x, x ∈ in_flight st → ∃ k ch, x = request_of V k ch;
  inv_closed : (∃ i, Ev (Caller i) AClose ∈ tr) → GoChan.closed (inbound st) = true
}.


(** The state of a coordinator with one caller that makes the calls [ks] and
    has received the results of the calls [done], the Map being used by the
    worker as [direct] would use it. *)
Definition single (direct : self_t V → call V → heap_t V → heap_t V * result V)
    (cm : self_t V) (h0 : heap_t V) (ks : list (call V)) (st : state V) : Prop :=
  ∃ done rest c,
    ks = done ++ rest ∧ callers st = [c] ∧ todo c = calls rest
    ∧ returned c = (direct_run direct cm done h0).2
    ∧ self st = cm ∧ aborted st = None ∧ GoChan.closed (inbound st) = false
    ∧ let hn := (direct_run direct cm done h0).1 in
      match at_ c with
      | Ready | Made _ => wk st = Idle ∧ GoChan.buf (inbound st) = [] ∧ mem st = hn
      | Waiting ch =>
        ∃ k rest', rest = k :: rest'
          ∧ ((wk st = Idle ∧ GoChan.buf (inbound st) = [request_of V k ch] ∧ mem st = hn)
             ∨ (wk st = Running (request_of V k ch) ∧ GoChan.buf (inbound st) = []
                ∧ mem st = hn)
             ∨ (∃ v, wk st = Replying (request_of V k ch) ch v
                     ∧ GoChan.buf (inbound st) = []
                     ∧ mem st = (direct cm k hn).1
                     ∧ result_of V k v = (direct cm k hn).2))
      end.

(** The steps such a state is away from the end, at most. *)
Definition remaining (st : state V) : nat :=
  match callers st with
  | [c] =>
    5 * length (todo c)
    - match at_ c with
      | Ready => 0
      | Made _ => 1
      | Waiting _ =>
        match wk st with
        | Idle => 2
        | Running _ => 3
        | Replying _ _ _ => 4
        | Returned => 0
        end
      end
  | _ => 0
  end.

(** The single caller of [init] sees the results [expected], in every
    execution as far as it got, and some execution gets to the end. *)
Definition observes (init : state V) (expected : list (result V)) : Prop :=
  (∀ tr st, steps init tr st →
     ∃ c, callers st = [c] ∧ returned c `prefix_of` expected
          ∧ (todo c = [] → returned c = expected))
  ∧ (∃ tr st c, steps init tr st ∧ callers st = [c] ∧ todo c = [] ∧ returned c = expected).

End Invariant.
Arguments well_formed : clear implicits.
Arguments serves : clear implicits.

(** ** The properties that are claimed *)

Section Properties.
Context {V : coordinator}.



(** Reply channels: made by callers with capacity 0, each made once, each
    sent in one request only; the worker writes once to the channel of every
    request it has received, in the order it received them, the request it
    still holds apart, and to no channel twice; and when it is about to
    write, the write can happen. *)
Definition reply_discipline (tr : list (event V)) (st : state V) : Prop :=
  (∀ e ch n, e ∈ tr → act e = AMake ch n → n = 0 ∧ ∃ i, actor e = Caller i)
  ∧ NoDup (omap made_chan tr)
  ∧ NoDup (omap sent_chan tr)
  ∧ omap sent_chan tr ⊆ omap made_chan tr
  ∧ omap received_chan tr
    = omap replied_chan tr ++ omap (reply_chan V) (serving (wk st))
  ∧ NoDup (omap received_chan tr)
  ∧ NoDup (omap replied_chan tr)
  ∧ (∀ e, e ∈ tr → is_reply e = true → actor e = Worker)
  ∧ (∀ x ch v, wk st = Replying x ch v → aborted st = None →
       ∃ i k evs st',
         step st evs st'
         ∧ evs = [Ev Worker (AReply ch v); Ev (Caller i) (AReturn k ch (result_of V k v))]).

End Properties.

(** [UnderlyingStorage()] as a snapshot: what is read through the container
    it returned stays what it was, whatever the coordinator does later. *)
Definition snapshot_view {Key Value Map Storage Heap C : Type}
    (M : ConcurrentMap.MapMethods Key Value Map Storage Heap)
    (read : Storage → Heap → C) : Prop :=
  ∀ storage h progs tr st i ch s tr' st',
    steps (ConcurrentMap.NewConcurrentMap M storage h progs) tr st →
    Ev (V := ConcurrentMap.code M) (Caller i)
      (AReturn (V := ConcurrentMap.code M) ConcurrentMap.UnderlyingStorage ch
         (ConcurrentMap.RetStorage s)) ∈ tr →
    steps st tr' st' →
    read s (mem st') = read s (mem st).

(** ** Reference maps and runs to try the coordinators on *)

Module Demo.

(** Modelled from the spec: the reference single-threaded map of the
    request-typed coordinator ([Set] and [Delete] return the new length,
    [Get] the value and whether it was found). *)
Definition reference_typed (k : ConcurrentMap.method string Z) (m : gmap string Z)
    : gmap string Z * ConcurrentMap.ret Z nat nat :=
  match k with
  | ConcurrentMap.Set_ key v =>
    (<[key := v]> m, ConcurrentMap.RetInt (Z.of_nat (size (<[key := v]> m))))
  | ConcurrentMap.Delete key =>
    (delete key m, ConcurrentMap.RetInt (Z.of_nat (size (delete key m))))
  | ConcurrentMap.Get key =>
    (m, match m !! key with
        | Some v => ConcurrentMap.RetGet v true
        | None => ConcurrentMap.RetGet 0%Z false
        end)
  | _ => (m, ConcurrentMap.RetVoid)
  end.

(** Modelled from the spec: the reference single-threaded map of the
    uniform-message coordinator ([Set] and [Delete] return the previous value
    and whether there was one). *)
Definition reference_uniform (k : ChannelConcurrentMap.method Z) (m : gmap Z Z)
    : gmap Z Z * ChannelConcurrentMap.ret Z :=
  let previous key :=
    match m !! key with
    | Some v => ChannelConcurrentMap.RetPair v true
    | None => ChannelConcurrentMap.RetPair 0%Z false
    end in
  match k with
  | ChannelConcurrentMap.Set_ key v => (<[key := v]> m, previous key)
  | ChannelConcurrentMap.Delete key => (delete key m, previous key)
  | ChannelConcurrentMap.Get key => (m, previous key)
  | _ => (m, ChannelConcurrentMap.RetVoid)
  end.

Definition typed_map : ConcurrentMap.MapMethods string Z nat nat (list (gmap string Z)) :=
  BasicMap.typed 0%Z.
Definition uniform_map : ChannelConcurrentMap.MapMethods Z nat (list (gmap Z Z)) :=
  BasicMap.uniform 0%Z.

Definition typed_calls : list (ConcurrentMap.method string Z) :=
  [ConcurrentMap.Set_ "a" 1%Z; ConcurrentMap.Get "a"; ConcurrentMap.Delete "a";
   ConcurrentMap.Get "a"].
Definition uniform_calls : list (ChannelConcurrentMap.method Z) :=
  [ChannelConcurrentMap.Set_ 7%Z 1%Z; ChannelConcurrentMap.Get 7%Z;
   ChannelConcurrentMap.Delete 7%Z; ChannelConcurrentMap.Get 7%Z].

(** Two callers of the request-typed coordinator, interleaved. *)
Definition typed_init : state (ConcurrentMap.code typed_map) :=
  ConcurrentMap.NewConcurrentMap typed_map 0 [∅]
    [typed_calls;
     [ConcurrentMap.UnderlyingStorage; ConcurrentMap.UnderlyingMap; ConcurrentMap.IsEmpty]].

Definition typed_round (i : nat) : list task := [Caller i; Caller i; Worker; Caller i].

Definition typed_sched : list task :=
  [Caller 0; Caller 1; Caller 0; Worker; Caller 0; Caller 1; Worker; Caller 1]
  ++ typed_round 0 ++ typed_round 1 ++ typed_round 0 ++ typed_round 1 ++ typed_round 0.

Definition typed_run := run_or_stay typed_sched typed_init.

(** One caller of the request-typed coordinator that takes the raw storage
    and then sets a key. *)
Definition storage_init : state (ConcurrentMap.code typed_map) :=
  ConcurrentMap.NewConcurrentMap typed_map 0 [∅]
    [[ConcurrentMap.UnderlyingStorage; ConcurrentMap.Set_ "a" 1%Z]].
Definition storage_taken := run_or_stay (typed_round 0) storage_init.
Definition storage_later := run_or_stay (typed_round 0) storage_taken.2.

(** Two callers of the uniform-message coordinator: the first sets a key and
    calls [Close()] twice, the second has a [Get] in the buffer when the
    channel is closed. *)
Definition uniform_init : state (ChannelConcurrentMap.code uniform_map) :=
  ChannelConcurrentMap.NewChannelConcurrentMap uniform_map 0 [∅]
    [[Request (V := ChannelConcurrentMap.code uniform_map) (ChannelConcurrentMap.Set_ 7%Z 1%Z);
      Close; Close];
     [Request (V := ChannelConcurrentMap.code uniform_map) (ChannelConcurrentMap.Get 7%Z)]].

Definition uniform_round (i : nat) : list task :=
  [Caller i; Caller i; Worker; Worker; Caller i].

(** Up to the first [Close()], the [Get] buffered. *)
Definition sched_closed : list task := uniform_round 0 ++ [Caller 1; Caller 1; Caller 0].
(** Then the worker serves the [Get], *)
Definition sched_served : list task := sched_closed ++ [Worker; Worker; Caller 1].
(** and returns. *)
Definition sched_exited : list task := sched_served ++ [Worker].
(** Then the second [Close()]. *)
Definition sched_reclosed : list task := sched_exited ++ [Caller 0].

Definition uniform_closed := run_or_stay sched_closed uniform_init.
Definition uniform_served := run_or_stay sched_served uniform_init.
Definition uniform_exited := run_or_stay sched_exited uniform_init.
Definition uniform_reclosed := run_or_stay sched_reclosed uniform_init.

(** The first caller sets a key and closes; the second makes its reply
    channel for a [Get] only then. *)
Definition sched_late : list task := uniform_round 0 ++ [Caller 0; Caller 1].
Definition uniform_late := run_or_stay sched_late uniform_init.

(** Two callers of the uniform-message coordinator that both want to send
    while the worker is busy with neither: the second finds the buffer full. *)
Definition uniform_two : state (ChannelConcurrentMap.code uniform_map) :=
  ChannelConcurrentMap.NewChannelConcurrentMap uniform_map 0 [∅]
    [[Request (V := ChannelConcurrentMap.code uniform_map) (ChannelConcurrentMap.Set_ 7%Z 1%Z)];
     [Request (V := ChannelConcurrentMap.code uniform_map) (ChannelConcurrentMap.Get 7%Z)]].
Definition sched_full : list task := [Caller 0; Caller 1; Caller 1].
Definition uniform_full := run_or_stay sched_full uniform_two.

(** One caller of each coordinator. *)
Definition typed_single : state (ConcurrentMap.code typed_map) :=
  ConcurrentMap.NewConcurrentMap typed_map 0 [∅] [typed_calls].
Definition uniform_single : state (ChannelConcurrentMap.code uniform_map) :=
  ChannelConcurrentMap.NewChannelConcurrentMap uniform_map 0 [∅]
    [calls (V := ChannelConcurrentMap.code uniform_map) uniform_calls].

Definition typed_single_run :=
  run_or_stay (typed_round 0 ++ typed_round 0 ++ typed_round 0 ++ typed_round 0)
    typed_single.
Definition uniform_single_run :=
  run_or_stay (uniform_round 0 ++ uniform_round 0 ++ uniform_round 0 ++ uniform_round 0)
    uniform_single.

(** A worker of the uniform-message coordinator that holds a message of a
    type the switch does not name. *)
Definition stray_message : request (ChannelConcurrentMap.code uniform_map) :=
  ChannelConcurrentMap.otherType "*gomap.pingRequest".
Definition stray : state (ChannelConcurrentMap.code uniform_map) :=
  State (V := ChannelConcurrentMap.code uniform_map)
    (ChannelConcurrentMap.NewChannelConcurrentMap_struct 0) [∅] (GoChan.make 1)
    (Running stray_message) [] 1 None.

End Demo.

(** ** Further observations: cost, order and effect of the service *)

Section Coverage.
Context {V : coordinator}.

(** The steps an operation of a caller takes at most: make, send, receive,
    execute and reply for a method call; one for [Close()]. *)
Definition op_cost (o : op V) : nat :=
  match o with
  | Request _ => 5
  | Close => 1
  end.

Definition caller_potential (c : caller V) : nat :=
  sum_list (op_cost <$> todo c)
  - match at_ c with
    | Ready => 0
    | Made _ => 1
    | Waiting _ => 4
    end.

(** The steps a state is away from the end of every execution, at most. *)
Definition potential (st : state V) : nat :=
  sum_list (caller_potential <$> callers st)
  + 2 * length (GoChan.buf (inbound st))
  + match wk st with
    | Returned => 0
    | Idle => 1
    | Running _ => 2
    | Replying _ _ _ => 1
    end
  + match aborted st with
    | Some _ => 0
    | None => 1
    end.

(** The requests the worker has executed, in order, each with the memory it
    was executed on. *)
Definition executed (tr : list (event V)) : list (request V * heap_t V) :=
  omap (λ e, match act e with AExec x h => Some (x, h) | _ => None end) tr.

(** The memory the loop body leaves behind (a panic leaves it as it is). *)
Definition next_mem (cm : self_t V) (h : heap_t V) (x : request V) : heap_t V :=
  match loop_body V cm h x with
  | Reply _ h' _ _ => h'
  | Panic _ => h
  end.

(** [l] is a chain of executions from the memory [h] to the memory [h_end]:
    each request is executed on the memory the one before left behind. *)
Fixpoint chained (cm : self_t V) (h : heap_t V) (l : list (request V * heap_t V))
    (h_end : heap_t V) : Prop :=
  match l with
  | [] => h_end = h
  | (x, hx) :: l' => hx = h ∧ chained cm (next_mem cm h x) l' h_end
  end.

(** No caller ever calls [Close()]. *)
Definition never_closes (progs : list (list (op V))) : Prop :=
  ∀ p o, p ∈ progs → o ∈ p → o ≠ Close.

(** No step is possible. *)
Definition stuck (st : state V) : Prop := ∀ evs st', ¬ step st evs st'.

(** Every caller has returned from all its calls. *)
Definition all_returned (st : state V) : Prop :=
  ∀ c, c ∈ callers st → todo c = [] ∧ at_ c = Ready.

End Coverage.

(** * Facts *)

(** ** Lists *)

Section ListFacts.
Context {A B : Type}.
Implicit Types (f : A → option B) (l : list A).

Lemma omap_insert_perm f l i x y :
  l !! i = Some x →
  option_list (f x) ++ omap f (<[i := y]> l) ≡ₚ option_list (f y) ++ omap f l.
Proof.
  intros Hi.
  rewrite <- (take_drop_middle l i x Hi) at 2.
  rewrite insert_take_drop by (eapply lookup_lt_Some; eauto).
  rewrite !omap_app. simpl.
  destruct (f x) as [b|], (f y) as [b'|]; simpl.
  - rewrite <- !Permutation_middle. apply perm_swap.
  - by rewrite <- Permutation_middle.
  - by rewrite <- Permutation_middle.
  - done.
Qed.

Lemma omap_insert_same f l i x y :
  l !! i = Some x → f x = f y → omap f (<[i := y]> l) = omap f l.
Proof.
  intros Hi Hf.
  rewrite <- (take_drop_middle l i x Hi) at 2.
  rewrite insert_take_drop by (eapply lookup_lt_Some; eauto).
  rewrite !omap_app. simpl. by rewrite Hf.
Qed.

Lemma omap_insert_gain f l i x y b :
  l !! i = Some x → f x = None → f y = Some b →
  omap f (<[i := y]> l) ≡ₚ b :: omap f l.
Proof.
  intros Hi Hx Hy. pose proof (omap_insert_perm f l i x y Hi) as P.
  by rewrite Hx, Hy in P.
Qed.

Lemma omap_insert_lose f l i x y b :
  l !! i = Some x → f x = Some b → f y = None →
  b :: omap f (<[i := y]> l) ≡ₚ omap f l.
Proof.
  intros Hi Hx Hy. pose proof (omap_insert_perm f l i x y Hi) as P.
  by rewrite Hx, Hy in P.
Qed.

Lemma omap_NoDup_lookup_inj f l i j x y b :
  NoDup (omap f l) → l !! i = Some x → l !! j = Some y →
  f x = Some b → f y = Some b → i = j.
Proof.
  revert i j. induction l as [|a l IH]; intros i j Hnd Hi Hj Hx Hy; [done|].
  simpl in Hnd.
  assert (∀ n z, l !! n = Some z → f z = Some b → b ∈ omap f l) as Hin.
  { intros n z Hn Hz. apply list_elem_of_omap. exists z. split; [|done].
    by eapply list_elem_of_lookup_2. }
  destruct i as [|i], j as [|j]; simpl in *; simplify_eq; try done.
  - rewrite Hx in Hnd. apply NoDup_cons in Hnd as [Hnot _].
    destruct Hnot. eauto.
  - rewrite Hy in Hnd. apply NoDup_cons in Hnd as [Hnot _].
    destruct Hnot. eauto.
  - f_equal. apply IH; try done.
    destruct (f a); [by apply NoDup_cons in Hnd as [_ ?]|done].
Qed.

Lemma omap_NoDup_elem_inj f l x y b :
  NoDup (omap f l) → x ∈ l → y ∈ l → f x = Some b → f y = Some b → x = y.
Proof.
  intros Hnd [i Hi]%list_elem_of_lookup_1 [j Hj]%list_elem_of_lookup_1 Hx Hy.
  assert (i = j) by eauto using omap_NoDup_lookup_inj. congruence.
Qed.

End ListFacts.

(** ** The runtime *)

Section RuntimeFacts.
Context {V : coordinator}.
Implicit Types (st : state V) (tr : list (event V)) (c : caller V).

Lemma steps_one st evs st' : step st evs st' → steps st evs st'.
Proof. intros Hs. change evs with ([] ++ evs). eapply steps_snoc; [constructor|done]. Qed.

Lemma steps_app st tr st' tr' st'' :
  steps st tr st' → steps st' tr' st'' → steps st (tr ++ tr') st''.
Proof.
  intros H1 H2. induction H2 as [|? ? ? ? ? ? IH Hs].
  - by rewrite app_nil_r.
  - rewrite app_assoc. eapply steps_snoc; eauto.
Qed.

Lemma steps_cons st evs st' tr st'' :
  step st evs st' → steps st' tr st'' → steps st (evs ++ tr) st''.
Proof. intros. eapply steps_app; eauto using steps_one. Qed.

Lemma fire_sound t st evs st' : fire t st = Some (evs, st') → step st evs st'.
Proof.
  unfold fire. intros Hf.
  destruct (aborted st) eqn:Hab; [done|].
  destruct t as [|i].
  - destruct (wk st) eqn:Hw; try done.
    + destruct (GoChan.recv (inbound st)) eqn:Hr; try done.
      * simplify_eq. by apply step_dequeue.
      * destruct (exits_on_close V) eqn:He; simplify_eq. by apply step_exit.
    + destruct (loop_body V (self st) (mem st) x) eqn:Hb; simplify_eq.
      * by eapply step_exec.
      * rewrite <- Hw. by eapply step_exec_panic.
  - destruct (callers st !! i) as [c|] eqn:Hc; [|done].
    destruct (at_ c) eqn:Hat, (todo c) as [|[k|] rest] eqn:Htodo; try done.
    + simplify_eq. rewrite <- Htodo. by eapply step_make.
    + destruct (GoChan.close (inbound st)) eqn:Hcl; simplify_eq.
      * by eapply step_close.
      * by eapply step_close_closed.
    + destruct (GoChan.send (request_of V k ch) (inbound st)) eqn:Hs.
      * simplify_eq. rewrite <- Htodo. by eapply step_enqueue.
      * destruct (wk st) eqn:Hw; try done.
        destruct (GoChan.buf (inbound st)) eqn:Hbuf; try done.
        simplify_eq. rewrite <- Htodo. by eapply step_handoff.
      * simplify_eq. by eapply step_send_closed.
    + destruct (wk st) eqn:Hw; try done.
      case_decide; simplify_eq. by eapply step_reply.
Qed.

Lemma fire_complete st evs st' : step st evs st' → ∃ t, fire t st = Some (evs, st').
Proof.
  destruct 1;
    first [ exists (Caller i) | exists Worker ]; unfold fire;
    repeat match goal with
           | H : _ = _ |- _ => rewrite H
           end; simpl; try done.
  by rewrite decide_True.
Qed.

Lemma run_sound sched st tr st' : run sched st = Some (tr, st') → steps st tr st'.
Proof.
  revert st tr st'. induction sched as [|t sched IH]; simpl; intros st tr st' Hr.
  - simplify_eq. constructor.
  - destruct (fire t st) as [[evs st1]|] eqn:Hf; [|done].
    destruct (run sched st1) as [[tr1 st2]|] eqn:Hr1; [|done].
    simplify_eq. eapply steps_cons; eauto using fire_sound.
Qed.

End RuntimeFacts.

(** ** Channels *)

Section ChanFacts.
Context {A : Type}.
Implicit Types (q : GoChan.chan A).

Lemma chan_send_Sent x q q' :
  GoChan.send x q = GoChan.Sent q' →
  GoChan.closed q = false ∧ GoChan.buf q' = GoChan.buf q ++ [x]
  ∧ GoChan.closed q' = false ∧ GoChan.cap q' = GoChan.cap q
  ∧ length (GoChan.buf q) < GoChan.cap q.
Proof.
  unfold GoChan.send. destruct (GoChan.closed q); [done|].
  case_decide; [|done]. intros [= <-]. done.
Qed.

Lemma chan_send_Panics x q :
  GoChan.send x q = GoChan.SendPanics ↔ GoChan.closed q = true.
Proof.
  unfold GoChan.send. destruct (GoChan.closed q); [done|].
  case_decide; split; done.
Qed.

Lemma chan_recv_Received q x q' :
  GoChan.recv q = GoChan.Received x q' →
  GoChan.buf q = x :: GoChan.buf q' ∧ GoChan.closed q' = GoChan.closed q
  ∧ GoChan.cap q' = GoChan.cap q.
Proof.
  unfold GoChan.recv. destruct (GoChan.buf q) as [|y rest] eqn:Hb.
  - by destruct (GoChan.closed q).
  - intros [= <- <-]. done.
Qed.

Lemma chan_recv_Closed q :
  GoChan.recv q = GoChan.RecvClosed ↔ GoChan.buf q = [] ∧ GoChan.closed q = true.
Proof.
  unfold GoChan.recv. destruct (GoChan.buf q) as [|y rest] eqn:Hb.
  - destruct (GoChan.closed q); split; (done || by intros [_ ?]).
  - split; [done | by intros [? _]].
Qed.

Lemma chan_close_Some q q' :
  GoChan.close q = Some q' →
  GoChan.closed q = false ∧ GoChan.buf q' = GoChan.buf q ∧ GoChan.closed q' = true
  ∧ GoChan.cap q' = GoChan.cap q.
Proof.
  unfold GoChan.close. destruct (GoChan.closed q); [done|]. intros [= <-]. done.
Qed.

Lemma chan_close_None q : GoChan.close q = None ↔ GoChan.closed q = true.
Proof. unfold GoChan.close. destruct (GoChan.closed q); split; done. Qed.

End ChanFacts.

(** ** The invariant *)

Section InvariantFacts.
Context {V : coordinator}.
Implicit Types (st : state V) (tr : list (event V)).

Lemma omap_held_boot (f : caller V → option chan_id) (progs : list (list (op V))) :
  (∀ p, f (MkCaller p [] Ready) = None) →
  omap f ((λ p, MkCaller p [] Ready) <$> progs) = [].
Proof. intros Hf. induction progs as [|p progs IH]; simpl; [done|]. by rewrite Hf. Qed.

Lemma invariant_boot (cm : self_t V) h n c0 progs :
  invariant c0 cm [] (boot cm h n c0 progs).
Proof.
  split; simpl; try done.
  - by rewrite Nat.sub_diag.
  - by rewrite omap_held_boot.
  - by rewrite omap_held_boot.
  - intros i c Hc. apply list_lookup_fmap_Some in Hc as (p & -> & _). done.
  - intros i k ch r Hin. by apply elem_of_nil in Hin.
  - intros x Hin. by apply elem_of_nil in Hin.
  - intros [i Hin]. by apply elem_of_nil in Hin.
Qed.

(** What an invariant state knows about the channels in use. *)
Lemma invariant_NoDup_made c0 cm0 tr st :
  invariant c0 cm0 tr st → NoDup (omap made_chan tr).
Proof. intros I. rewrite (inv_made _ _ _ _ I). apply NoDup_seq. Qed.

Lemma invariant_NoDup_sent c0 cm0 tr st :
  invariant c0 cm0 tr st →
  NoDup (omap sent_chan tr ++ omap held_made (callers st)).
Proof.
  intros I. rewrite <- (inv_fresh _ _ _ _ I). eauto using invariant_NoDup_made.
Qed.

Lemma invariant_sent_split c0 cm0 tr st :
  invariant c0 cm0 tr st →
  omap sent_chan tr = omap replied_chan tr ++ omap (reply_chan V) (in_flight st).
Proof.
  intros I. rewrite (inv_sent _ _ _ _ I), (inv_received _ _ _ _ I).
  unfold in_flight. by rewrite omap_app, app_assoc.
Qed.

Lemma invariant_NoDup_in_flight c0 cm0 tr st :
  invariant c0 cm0 tr st → NoDup (omap (reply_chan V) (in_flight st)).
Proof.
  intros I. pose proof (invariant_NoDup_sent _ _ _ _ I) as Hnd.
  apply NoDup_app in Hnd as (Hnd & _ & _).
  rewrite (invariant_sent_split _ _ _ _ I) in Hnd.
  by apply NoDup_app in Hnd as (_ & _ & ?).
Qed.

Lemma invariant_NoDup_waiting c0 cm0 tr st :
  invariant c0 cm0 tr st → NoDup (omap held_waiting (callers st)).
Proof.
  intros I. rewrite (inv_waiting _ _ _ _ I). eauto using invariant_NoDup_in_flight.
Qed.

Lemma invariant_NoDup_replied c0 cm0 tr st :
  invariant c0 cm0 tr st → NoDup (omap replied_chan tr).
Proof.
  intros I. pose proof (invariant_NoDup_sent _ _ _ _ I) as Hnd.
  apply NoDup_app in Hnd as (Hnd & _ & _).
  rewrite (invariant_sent_split _ _ _ _ I) in Hnd.
  by apply NoDup_app in Hnd as (? & _ & _).
Qed.

End InvariantFacts.

(** ** The invariant is kept by every step *)

Section InvariantStep.
Context {V : coordinator}.
Hypothesis WF : well_formed V.
Implicit Types (st : state V) (tr : list (event V)).

Local Ltac tr_simpl :=
  rewrite ?omap_app;
  cbn [omap list_omap made_chan sent_chan received_chan replied_chan act actor
       self mem inbound wk callers next_chan aborted];
  rewrite ?(wf_request_chan WF); cbn [option_list]; rewrite ?app_nil_r.

Lemma omap_delete_split {A B} (f : A → option B) l i x :
  l !! i = Some x → omap f l ≡ₚ option_list (f x) ++ omap f (delete i l).
Proof.
  intros Hi. rewrite <- (take_drop_middle l i x Hi) at 1.
  rewrite delete_take_drop, !omap_app. simpl.
  destruct (f x); simpl; [|done]. by rewrite <- Permutation_middle.
Qed.

Lemma omap_insert_split {A B} (f : A → option B) l i x y :
  l !! i = Some x → omap f (<[i := y]> l) ≡ₚ option_list (f y) ++ omap f (delete i l).
Proof.
  intros Hi. rewrite insert_take_drop by (eapply lookup_lt_Some; eauto).
  rewrite delete_take_drop, !omap_app. simpl.
  destruct (f y); simpl; [|done]. by rewrite <- Permutation_middle.
Qed.

(** Rewrites the channels held by the callers of both states in terms of
    those held by the callers other than [i]. *)
Local Ltac held_split Hc :=
  unfold set_caller;
  rewrite ?(omap_insert_split held_made _ _ _ _ Hc),
          ?(omap_insert_split held_waiting _ _ _ _ Hc),
          ?(omap_delete_split held_made _ _ _ Hc),
          ?(omap_delete_split held_waiting _ _ _ Hc);
  match type of Hc with
  | _ = Some ?c => destruct c; cbn [at_ todo returned] in *; simplify_eq
  end;
  cbn [held_made held_waiting at_ option_list app].

Lemma step_inv_made c0 cm0 tr st evs st' :
  invariant c0 cm0 tr st → step st evs st' →
  omap made_chan (tr ++ evs) = seq c0 (next_chan st' - c0) ∧ c0 ≤ next_chan st'.
Proof.
  intros I Hs. pose proof (inv_made _ _ _ _ I) as Hm.
  pose proof (inv_next _ _ _ _ I) as Hn.
  destruct Hs; tr_simpl; try done.
  split; [|lia]. rewrite Hm.
  replace (S (next_chan st) - c0) with (S (next_chan st - c0)) by lia.
  rewrite seq_S. do 2 f_equal. lia.
Qed.

Lemma step_inv_fresh c0 cm0 tr st evs st' :
  invariant c0 cm0 tr st → step st evs st' →
  omap made_chan (tr ++ evs) ≡ₚ omap sent_chan (tr ++ evs) ++ omap held_made (callers st').
Proof.
  intros I Hs. pose proof (inv_fresh _ _ _ _ I) as Hf.
  destruct Hs; tr_simpl; try done; rewrite Hf;
    match goal with Hc : callers _ !! _ = Some _ |- _ => held_split Hc end.
  all: solve_Permutation.
Qed.

Lemma step_inv_sent c0 cm0 tr st evs st' :
  invariant c0 cm0 tr st → step st evs st' →
  omap sent_chan (tr ++ evs)
  = omap received_chan (tr ++ evs) ++ omap (reply_chan V) (GoChan.buf (inbound st')).
Proof.
  intros I Hs. pose proof (inv_sent _ _ _ _ I) as Hf.
  destruct Hs; tr_simpl; try done.
  - (* handoff *) rewrite Hf. rewrite H4. simpl. by rewrite ?app_nil_r.
  - (* enqueue *)
    apply chan_send_Sent in H3 as (_ & -> & _). rewrite Hf, omap_app. simpl.
    rewrite (wf_request_chan WF). simpl. by rewrite app_assoc.
  - (* dequeue *)
    apply chan_recv_Received in H1 as (Hb & _). rewrite Hf, Hb. simpl.
    destruct (reply_chan V x); simpl; [|by rewrite app_nil_r].
    by rewrite <- app_assoc.
  - (* close *)
    apply chan_close_Some in H3 as (_ & -> & _). done.
Qed.

Lemma step_inv_received c0 cm0 tr st evs st' :
  invariant c0 cm0 tr st → step st evs st' →
  omap received_chan (tr ++ evs)
  = omap replied_chan (tr ++ evs) ++ omap (reply_chan V) (serving (wk st')).
Proof.
  intros I Hs. pose proof (inv_received _ _ _ _ I) as Hf.
  destruct Hs; tr_simpl; try done;
    repeat match goal with H : wk _ = _ |- _ => rewrite H in Hf end;
    simpl in Hf; rewrite ?app_nil_r in Hf; simpl; rewrite ?(wf_request_chan WF);
    try (by rewrite Hf).
  (* reply *)
  match goal with
  | H : wk _ = Replying _ _ _ |- _ =>
    destruct (inv_replying _ _ _ _ I _ _ _ H) as (h & cm & h' & _ & Hb)
  end.
  apply (wf_reply_chan WF) in Hb. by rewrite Hb in Hf.
Qed.

Lemma step_inv_waiting c0 cm0 tr st evs st' :
  invariant c0 cm0 tr st → step st evs st' →
  omap held_waiting (callers st') ≡ₚ omap (reply_chan V) (in_flight st').
Proof.
  intros I Hs. pose proof (inv_waiting _ _ _ _ I) as Hf.
  unfold in_flight in *.
  destruct Hs; cbn [self mem inbound wk callers next_chan aborted]; try done;
    repeat match goal with H : wk _ = _ |- _ => rewrite H in Hf end;
    rewrite ?omap_app in *; cbn [serving omap list_omap app] in *.
  - (* make *) rewrite <- Hf. held_split H0. done.
  - (* handoff *)
    rewrite (wf_request_chan WF). revert Hf. held_split H0. intros ->.
    simpl. solve_Permutation.
  - (* enqueue *)
    apply chan_send_Sent in H3 as (_ & -> & _). rewrite omap_app. simpl.
    rewrite (wf_request_chan WF). revert Hf. held_split H0. intros ->.
    simpl. solve_Permutation.
  - (* dequeue *)
    apply chan_recv_Received in H1 as (Hb & _). rewrite Hb in Hf. simpl in *.
    rewrite Hf. destruct (reply_chan V x); simpl; solve_Permutation.
  - (* exit *) done.
  - (* exec *) done.
  - (* reply *)
    destruct (inv_replying _ _ _ _ I _ _ _ H0) as (h & cm & h' & _ & Hb).
    apply (wf_reply_chan WF) in Hb. rewrite Hb in Hf. revert Hf.
    held_split H1. simpl. intros Hf. by apply Permutation_cons_inv in Hf.
  - (* close *)
    apply chan_close_Some in H3 as (_ & -> & _). rewrite <- Hf.
    held_split H0. done.
Qed.


Lemma step_inv_self c0 cm0 tr st evs st' :
  invariant c0 cm0 tr st → step st evs st' → self st' = cm0.
Proof.
  intros I Hs. pose proof (inv_self _ _ _ _ I) as Hf.
  destruct Hs; cbn [self]; try done.
  match goal with H : loop_body _ _ _ _ = Reply _ _ _ _ |- _ =>
    apply (wf_self WF) in H end.
  congruence.
Qed.

Lemma step_inv_replying c0 cm0 tr st evs st' :
  invariant c0 cm0 tr st → step st evs st' →
  ∀ x ch v, wk st' = Replying x ch v →
    ∃ h cm h', Ev Worker (AExec x h) ∈ tr ++ evs ∧ loop_body V cm0 h x = Reply cm h' ch v.
Proof.
  intros I Hs x' ch' v' Hw. pose proof (inv_self _ _ _ _ I) as Hself.
  assert (wk st = Replying x' ch' v' →
          ∃ h cm h', Ev Worker (AExec x' h) ∈ tr ++ evs
                     ∧ loop_body V cm0 h x' = Reply cm h' ch' v') as Hold.
  { intros Hw'. destruct (inv_replying _ _ _ _ I _ _ _ Hw') as (h & cm & h' & Hin & Hb).
    exists h, cm, h'. split; [|done]. apply elem_of_app. by left. }
  destruct Hs; cbn [wk] in Hw; try done; try (by apply Hold).
  (* exec *)
  simplify_eq. exists (mem st), cm, h. split.
  - apply elem_of_app. right. apply list_elem_of_singleton. done.
  - done.
Qed.

Lemma step_inv_exit c0 cm0 tr st evs st' :
  invariant c0 cm0 tr st → step st evs st' →
  wk st' = Returned →
  GoChan.closed (inbound st') = true ∧ GoChan.buf (inbound st') = [].
Proof.
  intros I Hs Hw. pose proof (inv_exit _ _ _ _ I) as Hold.
  destruct Hs; cbn [wk inbound] in *; try done; try (by apply Hold).
  - (* enqueue *)
    destruct (Hold Hw) as [Hc _].
    match goal with H : GoChan.send _ _ = GoChan.Sent _ |- _ =>
      apply chan_send_Sent in H as (Hc' & _) end.
    congruence.
  - (* exit *)
    match goal with H : GoChan.recv _ = GoChan.RecvClosed |- _ =>
      apply chan_recv_Closed in H as [? ?] end.
    done.
  - (* close *)
    destruct (Hold Hw) as [Hc _].
    match goal with H : GoChan.close _ = Some _ |- _ =>
      apply chan_close_Some in H as (Hc' & _) end.
    congruence.
Qed.


Lemma caller_ok_mono st st' c :
  (∀ y, y ∈ in_flight st → y ∈ in_flight st') → caller_ok st c → caller_ok st' c.
Proof.
  unfold caller_ok. intros Hsub. destruct (at_ c); try done.
  intros (k & rest & ? & ?). eauto 6.
Qed.

(** Two requests on their way that carry the same reply channel are one. *)
Lemma in_flight_same_chan c0 cm0 tr st x y ch :
  invariant c0 cm0 tr st →
  x ∈ in_flight st → y ∈ in_flight st →
  reply_chan V x = Some ch → reply_chan V y = Some ch → x = y.
Proof. intros I. apply omap_NoDup_elem_inj. eauto using invariant_NoDup_in_flight. Qed.

(** Two callers waiting on the same reply channel are one. *)
Lemma waiting_same_chan c0 cm0 tr st i j ci cj ch :
  invariant c0 cm0 tr st →
  callers st !! i = Some ci → callers st !! j = Some cj →
  at_ ci = Waiting ch → at_ cj = Waiting ch → i = j.
Proof.
  intros I Hi Hj Hci Hcj.
  eapply (omap_NoDup_lookup_inj held_waiting); eauto using invariant_NoDup_waiting.
  - unfold held_waiting. by rewrite Hci.
  - unfold held_waiting. by rewrite Hcj.
Qed.

(** The request the worker is answering is the one of the caller that waits
    on the channel it answers on. *)
Lemma replying_to_caller c0 cm0 tr st x ch v i c k rest :
  invariant c0 cm0 tr st →
  wk st = Replying x ch v →
  callers st !! i = Some c → at_ c = Waiting ch → todo c = Request k :: rest →
  x = request_of V k ch.
Proof.
  intros I Hw Hi Hat Htodo.
  destruct (inv_replying _ _ _ _ I _ _ _ Hw) as (h & cm & h' & _ & Hb).
  apply (wf_reply_chan WF) in Hb.
  pose proof (inv_callers _ _ _ _ I _ _ Hi) as Hok. unfold caller_ok in Hok.
  rewrite Hat in Hok. destruct Hok as (k' & rest' & Htodo' & Hin).
  rewrite Htodo in Htodo'. simplify_eq.
  eapply in_flight_same_chan; eauto using wf_request_chan.
  unfold in_flight. rewrite Hw. simpl. apply elem_of_cons. by left.
Qed.

Lemma step_inv_callers c0 cm0 tr st evs st' :
  invariant c0 cm0 tr st → step st evs st' →
  ∀ j c', callers st' !! j = Some c' → caller_ok st' c'.
Proof.
  intros I Hs j c' Hj. pose proof (inv_callers _ _ _ _ I) as Hold.
  destruct Hs; cbn [callers] in Hj; unfold set_caller in *.
  - (* make *)
    apply list_lookup_insert_Some in Hj as [(-> & <- & _) | (Hne & Hj)].
    + unfold caller_ok. simpl. eauto.
    + eapply caller_ok_mono; [|by eapply Hold]. done.
  - (* handoff *)
    apply list_lookup_insert_Some in Hj as [(-> & <- & _) | (Hne & Hj)].
    + unfold caller_ok, in_flight. simpl. eexists _, _. split; [done|].
      apply elem_of_cons. by left.
    + eapply caller_ok_mono; [|by eapply Hold].
      unfold in_flight. simpl. intros y Hy. rewrite H5 in Hy.
      apply elem_of_cons. by right.
  - (* enqueue *)
    apply chan_send_Sent in H3 as (_ & Hq & _).
    apply list_lookup_insert_Some in Hj as [(-> & <- & _) | (Hne & Hj)].
    + unfold caller_ok, in_flight. simpl. eexists _, _. split; [done|].
      rewrite Hq. rewrite !elem_of_app. right. right. by apply list_elem_of_singleton.
    + eapply caller_ok_mono; [|by eapply Hold].
      unfold in_flight. simpl. intros y Hy. rewrite Hq.
      rewrite !elem_of_app in *. tauto.
  - (* send on closed *) by eapply Hold.
  - (* dequeue *)
    apply chan_recv_Received in H1 as (Hq & _).
    eapply caller_ok_mono; [|by eapply Hold].
    unfold in_flight. simpl. intros y Hy. by rewrite H0, Hq in Hy.
  - (* exit *)
    eapply caller_ok_mono; [|by eapply Hold].
    unfold in_flight. simpl. intros y Hy. by rewrite H0 in Hy.
  - (* exec *)
    eapply caller_ok_mono; [|by eapply Hold].
    unfold in_flight. simpl. intros y Hy. by rewrite H0 in Hy.
  - (* exec panics *) by eapply Hold.
  - (* reply *)
    apply list_lookup_insert_Some in Hj as [(-> & <- & _) | (Hne & Hj)].
    + done.
    + pose proof (Hold _ _ Hj) as Hok. unfold caller_ok in *.
      destruct (at_ c') as [| |ch'] eqn:Hat'; try done.
      destruct Hok as (k' & rest' & Htodo' & Hin). exists k', rest'. split; [done|].
      unfold in_flight in *. rewrite H0 in Hin. simpl in *.
      apply elem_of_cons in Hin as [Hx|Hin]; [|done].
      destruct (inv_replying _ _ _ _ I _ _ _ H0) as (h & cm & h' & _ & Hb).
      apply (wf_reply_chan WF) in Hb. rewrite <- Hx, (wf_request_chan WF) in Hb.
      simplify_eq. destruct Hne.
      eapply (waiting_same_chan _ _ _ _ _ _ _ _ _ I); eauto.
  - (* close *)
    apply chan_close_Some in H3 as (_ & Hq & _).
    apply list_lookup_insert_Some in Hj as [(-> & <- & _) | (Hne & Hj)].
    + done.
    + eapply caller_ok_mono; [|by eapply Hold].
      unfold in_flight. simpl. intros y Hy. by rewrite Hq.
  - (* close of closed *) by eapply Hold.
Qed.

Lemma step_inv_returns c0 cm0 tr st evs st' :
  invariant c0 cm0 tr st → step st evs st' →
  ∀ i k ch r, Ev (Caller i) (AReturn k ch r) ∈ tr ++ evs →
    ∃ h cm h' v,
      Ev Worker (AExec (request_of V k ch) h) ∈ tr ++ evs
      ∧ loop_body V cm0 h (request_of V k ch) = Reply cm h' ch v
      ∧ r = result_of V k v.
Proof.
  intros I Hs i' k' ch' r' Hin.
  assert (Ev (Caller i') (AReturn k' ch' r') ∈ tr →
          ∃ h cm h' v,
            Ev Worker (AExec (request_of V k' ch') h) ∈ tr ++ evs
            ∧ loop_body V cm0 h (request_of V k' ch') = Reply cm h' ch' v
            ∧ r' = result_of V k' v) as Hold.
  { intros Hin'. destruct (inv_returns _ _ _ _ I _ _ _ _ Hin') as (h & cm & h' & v & ? & ? & ?).
    exists h, cm, h', v. split; [|done]. apply elem_of_app. by left. }
  apply elem_of_app in Hin as [Hin|Hin]; [by apply Hold|].
  destruct Hs; decompose_list_elem_of; simplify_eq.
  (* reply *)
  assert (x = request_of V k ch) as -> by eauto using replying_to_caller.
  destruct (inv_replying _ _ _ _ I _ _ _ H0) as (h & cm & h' & Hex & Hb).
  exists h, cm, h', v. split; [|done]. apply elem_of_app. by left.
Qed.

Lemma step_inv_flight c0 cm0 tr st evs st' :
  invariant c0 cm0 tr st → step st evs st' →
  ∀ x, x ∈ in_flight st' → ∃ k ch, x = request_of V k ch.
Proof.
  intros I Hs y. pose proof (inv_flight _ _ _ _ I) as Hold.
  unfold in_flight in *.
  destruct Hs; cbn [wk inbound]; try (by apply Hold);
    repeat match goal with H : wk _ = _ |- _ => rewrite H in Hold end;
    simpl in *.
  - (* handoff *)
    intros [->|Hin]%elem_of_cons; eauto.
  - (* enqueue *)
    apply chan_send_Sent in H3 as (_ & -> & _).
    rewrite app_assoc. intros [Hin| ->%list_elem_of_singleton]%elem_of_app; eauto.
  - (* dequeue *)
    apply chan_recv_Received in H1 as (Hq & _). rewrite Hq in Hold. apply Hold.
  - (* exit *) apply Hold.
  - (* exec *) apply Hold.
  - (* reply *)
    intros Hin. apply Hold. apply elem_of_cons. by right.
  - (* close *)
    apply chan_close_Some in H3 as (_ & -> & _). apply Hold.
Qed.

Lemma step_inv_closed c0 cm0 tr st evs st' :
  invariant c0 cm0 tr st → step st evs st' →
  (∃ i, Ev (Caller i) AClose ∈ tr ++ evs) → GoChan.closed (inbound st') = true.
Proof.
  intros I Hs [i' Hin]. pose proof (inv_closed _ _ _ _ I) as Hold.
  apply elem_of_app in Hin as [Hin|Hin].
  - assert (GoChan.closed (inbound st) = true) as Hc by eauto.
    destruct Hs; cbn [inbound]; try done.
    + apply chan_send_Sent in H3 as (? & _). congruence.
    + apply chan_recv_Received in H1 as (_ & ? & _). congruence.
    + by apply chan_close_Some in H3 as (_ & _ & ? & _).
  - destruct Hs; decompose_list_elem_of; simplify_eq.
    by apply chan_close_Some in H3 as (_ & _ & ? & _).
Qed.

Lemma invariant_step c0 cm0 tr st evs st' :
  invariant c0 cm0 tr st → step st evs st' → invariant c0 cm0 (tr ++ evs) st'.
Proof.
  intros I Hs. split.
  - by eapply step_inv_made.
  - by eapply step_inv_made.
  - by eapply step_inv_fresh.
  - by eapply step_inv_sent.
  - by eapply step_inv_received.
  - by eapply step_inv_waiting.
  - by eapply step_inv_replying.
  - by eapply step_inv_callers.
  - by eapply step_inv_self.
  - by eapply step_inv_returns.
  - by eapply step_inv_exit.
  - by eapply step_inv_flight.
  - by eapply step_inv_closed.
Qed.

Lemma invariant_steps c0 cm0 tr0 st0 tr st :
  invariant c0 cm0 tr0 st0 → steps st0 tr st → invariant c0 cm0 (tr0 ++ tr) st.
Proof.
  intros I Hs. induction Hs as [|? ? ? ? ? ? IH Hstep].
  - by rewrite app_nil_r.
  - rewrite app_assoc. eauto using invariant_step.
Qed.

Lemma invariant_reachable (cm : self_t V) h n c0 progs tr st :
  steps (boot cm h n c0 progs) tr st → invariant c0 cm tr st.
Proof.
  intros Hs. change tr with ([] ++ tr).
  eapply invariant_steps; eauto using invariant_boot.
Qed.

End InvariantStep.

(** ** The worker serves one request at a time *)

Section Serial.
Context {V : coordinator}.
Implicit Types (st : state V) (tr : list (event V)).



Lemma step_reply_actor st evs st' e :
  step st evs st' → e ∈ evs → is_reply e = true → actor e = Worker.
Proof. destruct 1; intros; decompose_list_elem_of; by simplify_eq. Qed.



Lemma steps_reply_actor st tr st' e :
  steps st tr st' → e ∈ tr → is_reply e = true → actor e = Worker.
Proof.
  induction 1 as [|? ? ? ? ? ? IH Hs]; intros Hin He.
  - by apply elem_of_nil in Hin.
  - apply elem_of_app in Hin as [?|?]; eauto using step_reply_actor.
Qed.




End Serial.

(** ** One caller: the coordinator answers as the Map itself would *)

Section Single.
Context {V : coordinator}.
Variable direct : self_t V → call V → heap_t V → heap_t V * result V.
Hypothesis SV : serves V direct.
Implicit Types (st : state V) (tr : list (event V)) (ks : list (call V)).

Lemma direct_run_app cm ks1 ks2 h :
  direct_run direct cm (ks1 ++ ks2) h
  = ((direct_run direct cm ks2 (direct_run direct cm ks1 h).1).1,
     (direct_run direct cm ks1 h).2
     ++ (direct_run direct cm ks2 (direct_run direct cm ks1 h).1).2).
Proof.
  revert h. induction ks1 as [|k ks1 IH]; intros h; simpl.
  - by destruct (direct_run direct cm ks2 h).
  - destruct (direct cm k h) as [h1 r]. rewrite IH.
    by destruct (direct_run direct cm ks1 h1).
Qed.

Lemma direct_run_snoc cm ks k h :
  direct_run direct cm (ks ++ [k]) h
  = ((direct cm k (direct_run direct cm ks h).1).1,
     (direct_run direct cm ks h).2 ++ [(direct cm k (direct_run direct cm ks h).1).2]).
Proof.
  rewrite direct_run_app. simpl.
  by destruct (direct cm k (direct_run direct cm ks h).1).
Qed.

Lemma single_boot cm h n c0 ks :
  single direct cm h ks (boot cm h n c0 [calls ks]).
Proof. exists [], ks, (MkCaller (calls ks) [] Ready). by repeat split. Qed.

Lemma single_caller_lookup st (c c' : caller V) i :
  callers st = [c] → callers st !! i = Some c' → i = 0 ∧ c' = c.
Proof.
  intros -> Hi. destruct i as [|i]; simpl in Hi; [by simplify_eq|].
  by destruct i.
Qed.

Local Ltac measure :=
  repeat match goal with
         | H : at_ ?c = _ |- context [at_ ?c] => rewrite H
         | H : wk ?st = _ |- context [wk ?st] => rewrite H
         | H : todo ?c = _ :: _ |- context [todo ?c] => rewrite H
         end;
  simpl; lia.

Lemma single_step cm h0 ks st evs st' :
  single direct cm h0 ks st → step st evs st' →
  single direct cm h0 ks st' ∧ remaining st' < remaining st.
Proof.
  intros (done & rest & c & Hks & Hcs & Htodo & Hret & Hself & Hab & Hopen & Hat) Hs.
  unfold remaining. rewrite Hcs.
  destruct Hs;
    try match goal with
        | H : callers _ !! _ = Some _ |- _ =>
          destruct (single_caller_lookup _ _ _ _ Hcs H) as [-> ->]
        end;
    unfold set_caller; cbn [self mem inbound wk callers next_chan aborted];
    rewrite ?Hcs; cbn [insert list_insert at_ todo returned].
  - (* make *)
    rewrite H1 in Hat. destruct Hat as (Hw & Hb & Hm). split; [|measure].
    exists done, rest, (MkCaller (todo c) (returned c) (Made (next_chan st))).
    by repeat split.
  - (* handoff *)
    rewrite H1 in Hat. destruct Hat as (Hw & Hb & Hm). split; [|measure].
    destruct rest as [|k' rest']; [by rewrite H2 in Htodo|].
    rewrite H2 in Htodo. simpl in Htodo. simplify_eq.
    eexists done, (k' :: rest'), _. repeat split; try done.
    simpl. eexists _, _. split; [done|]. right. left. done.
  - (* enqueue *)
    rewrite H1 in Hat. destruct Hat as (Hw & Hb & Hm).
    apply chan_send_Sent in H3 as (_ & Hq & Hq' & _). split; [|measure].
    destruct rest as [|k' rest']; [by rewrite H2 in Htodo|].
    rewrite H2 in Htodo. simpl in Htodo. simplify_eq.
    eexists done, (k' :: rest'), _. repeat split; try done.
    simpl. eexists _, _. split; [done|]. left. rewrite Hq, Hb. done.
  - (* send on closed *)
    apply chan_send_Panics in H3. congruence.
  - (* dequeue *)
    apply chan_recv_Received in H1 as (Hq & Hq' & _).
    destruct (at_ c) as [| |ch] eqn:Hc.
    + destruct Hat as (_ & Hb & _). congruence.
    + destruct Hat as (_ & Hb & _). congruence.
    + destruct Hat as (k & rest' & -> & [(Hw & Hb & Hm)|[(Hw & _)|(v & Hw & _)]]);
        try congruence.
      rewrite Hq in Hb. simplify_eq.
      split; [|rewrite H0, Htodo; simpl; lia].
      eexists done, (k :: rest'), c. repeat split; simpl; try done; try congruence.
      rewrite Hc. eexists _, _. split; [done|]. right. left. done.
  - (* exit *)
    apply chan_recv_Closed in H1 as [_ ?]. congruence.
  - (* exec *)
    destruct (at_ c) as [| |ch'] eqn:Hc.
    + destruct Hat as (? & _). congruence.
    + destruct Hat as (? & _). congruence.
    + destruct Hat as (k & rest' & -> & [(Hw & _)|[(Hw & Hb & Hm)|(v' & Hw & _)]]);
        try congruence.
      rewrite H0 in Hw. simplify_eq.
      destruct (SV (self st) (mem st) k ch') as (v' & Hbody & Hres).
      rewrite Hbody in H1. simplify_eq.
      split; [|rewrite H0, Htodo; simpl; lia].
      eexists done, (k :: rest'), c. repeat split; simpl; try done; try congruence.
      rewrite Hc. eexists _, _. split; [done|]. right. right.
      eexists. rewrite <- Hm. done.
  - (* exec panics *)
    destruct (at_ c) as [| |ch'] eqn:Hc.
    + destruct Hat as (? & _). congruence.
    + destruct Hat as (? & _). congruence.
    + destruct Hat as (k & rest' & -> & [(Hw & _)|[(Hw & Hb & Hm)|(v' & Hw & _)]]);
        try congruence.
      rewrite H0 in Hw. simplify_eq.
      destruct (SV (self st) (mem st) k ch') as (v' & Hbody & Hres). congruence.
  - (* reply *)
    rewrite H2 in Hat.
    destruct Hat as (k' & rest' & -> & [(Hw & _)|[(Hw & _)|(v' & Hw & Hb & Hm & Hres)]]);
      try congruence.
    rewrite H0 in Hw. rewrite H3 in Htodo. simpl in Htodo. simplify_eq.
    split; [|measure].
    eexists (done ++ [k']), rest', _. rewrite direct_run_snoc. simpl.
    repeat split; try done.
    + by rewrite <- app_assoc.
    + by rewrite Hret, Hres.
  - (* close *)
    destruct rest; rewrite H2 in Htodo; simpl in Htodo; simplify_eq.
  - (* close of closed *)
    destruct rest; rewrite H2 in Htodo; simpl in Htodo; simplify_eq.
Qed.

Lemma single_steps cm h0 ks st tr st' :
  single direct cm h0 ks st → steps st tr st' → single direct cm h0 ks st'.
Proof.
  intros I Hs. induction Hs as [|? ? ? ? ? ? IH Hstep]; [done|].
  by destruct (single_step _ _ _ _ _ _ (IH I) Hstep) as [? _].
Qed.

(** A caller that is not at the end can move, or the worker can. *)
Lemma single_progress cm h0 ks st c :
  single direct cm h0 ks st → callers st = [c] → todo c ≠ [] →
  ∃ evs st', step st evs st'.
Proof.
  intros (done & rest & c' & Hks & Hcs & Htodo & Hret & Hself & Hab & Hopen & Hat) Hc Hne.
  rewrite Hcs in Hc. simplify_eq.
  destruct rest as [|k rest]; [done|]. simpl in Htodo.
  assert (callers st !! 0 = Some c) as H0 by by rewrite Hcs.
  destruct (at_ c) as [| |ch] eqn:Hc.
  - eexists _, _. by eapply step_make.
  - destruct Hat as (Hw & Hb & Hm).
    destruct (GoChan.send (request_of V k ch) (inbound st)) eqn:Hsend.
    + eexists _, _. by eapply step_enqueue.
    + eexists _, _. by eapply step_handoff.
    + apply chan_send_Panics in Hsend. congruence.
  - destruct Hat as (k' & rest' & ? & [(Hw & Hb & Hm)|[(Hw & Hb & Hm)|(v & Hw & Hb & Hm & Hres)]]);
      simplify_eq.
    + eexists _, _. eapply step_dequeue; [done|done|].
      unfold GoChan.recv. by rewrite Hb.
    + destruct (SV (self st) (mem st) k' ch) as (v & Hbody & _).
      eexists _, _. by eapply step_exec.
    + eexists _, _. by eapply step_reply.
Qed.

Lemma single_finishes cm h0 ks st :
  single direct cm h0 ks st →
  ∃ tr st' c, steps st tr st' ∧ callers st' = [c] ∧ todo c = [].
Proof.
  remember (remaining st) as n eqn:Hn. revert st Hn.
  induction (lt_wf n) as [n _ IH]. intros st -> I.
  pose proof I as (done & rest & c & Hks & Hcs & Htodo & I').
  destruct (todo c) as [|o os] eqn:Ht.
  - exists [], st, c. split; [constructor|done].
  - destruct (single_progress cm h0 ks st c I Hcs) as (evs & st1 & Hs); [by rewrite Ht|].
    destruct (single_step _ _ _ _ _ _ I Hs) as [I1 Hlt].
    destruct (IH _ Hlt st1 eq_refl I1) as (tr & st' & c' & Hs' & ? & ?).
    exists (evs ++ tr), st', c'. split; [|done]. eauto using steps_cons.
Qed.

(** The results of a caller in a [single] state, against the direct run. *)
Lemma single_returned cm h0 ks st c :
  single direct cm h0 ks st → callers st = [c] →
  returned c `prefix_of` (direct_run direct cm ks h0).2
  ∧ (todo c = [] → returned c = (direct_run direct cm ks h0).2).
Proof.
  intros (done & rest & c' & Hks & Hcs & Htodo & Hret & _) Hc.
  rewrite Hcs in Hc. simplify_eq. rewrite Hret, direct_run_app. simpl. split.
  - by eexists.
  - intros Ht. rewrite Ht in Htodo. destruct rest; [|done]. simpl.
    by rewrite app_nil_r.
Qed.

Lemma single_observes cm h n c0 ks :
  observes (boot cm h n c0 [calls ks]) (direct_run direct cm ks h).2.
Proof.
  pose proof (single_boot cm h n c0 ks) as I0. split.
  - intros tr st Hs. pose proof (single_steps _ _ _ _ _ _ I0 Hs) as I.
    pose proof I as (done & rest & c & _ & Hcs & _).
    exists c. split; [done|]. by eapply single_returned.
  - destruct (single_finishes _ _ _ _ I0) as (tr & st & c & Hs & Hc & Ht).
    pose proof (single_steps _ _ _ _ _ _ I0 Hs) as I.
    destruct (single_returned _ _ _ _ _ I Hc) as [_ Hr].
    exists tr, st, c. repeat split; auto.
Qed.

End Single.

(** A Map that behaves as a reference map gives the results of the
    reference map. *)
Lemma direct_run_reference {V : coordinator} {R : Type}
    (direct : self_t V → call V → heap_t V → heap_t V * result V)
    (apply : call V → R → R * result V) (sim : R → heap_t V → Prop)
    (allowed : call V → bool) cm ks r h :
  (∀ k r h, allowed k = true → sim r h →
     sim (apply k r).1 (direct cm k h).1 ∧ (direct cm k h).2 = (apply k r).2) →
  Forall (λ k, allowed k = true) ks → sim r h →
  (direct_run direct cm ks h).2 = reference_run apply ks r.
Proof.
  intros Hsim Hks. revert r h. induction Hks as [|k ks Hk Hks IH]; intros r h Hrh.
  - done.
  - simpl. destruct (Hsim k r h Hk Hrh) as [Hs He].
    destruct (direct cm k h) as [h1 x], (apply k r) as [r1 y]. simpl in *.
    specialize (IH _ _ Hs).
    destruct (direct_run direct cm ks h1). simpl in *. congruence.
Qed.

(** ** More on executions *)

Section MoreFacts.
Context {V : coordinator}.
Hypothesis WF : well_formed V.
Implicit Types (st : state V) (tr : list (event V)).

(** A request on its way belongs to a caller that waits for its answer. *)
Lemma waiting_owner c0 cm0 tr st x :
  invariant c0 cm0 tr st → x ∈ in_flight st →
  ∃ i c k rest ch,
    callers st !! i = Some c ∧ at_ c = Waiting ch ∧ todo c = Request k :: rest
    ∧ x = request_of V k ch.
Proof.
  intros I Hx.
  destruct (inv_flight _ _ _ _ I x Hx) as (k0 & ch & ->).
  assert (ch ∈ omap held_waiting (callers st)) as Hch.
  { rewrite (inv_waiting _ _ _ _ I). apply list_elem_of_omap.
    exists (request_of V k0 ch). split; [done|]. apply (wf_request_chan WF). }
  apply list_elem_of_omap in Hch as (c & [i Hi]%list_elem_of_lookup_1 & Hc).
  unfold held_waiting in Hc. destruct (at_ c) as [| |ch'] eqn:Hat; simplify_eq.
  pose proof (inv_callers _ _ _ _ I _ _ Hi) as Hok. unfold caller_ok in Hok.
  rewrite Hat in Hok. destruct Hok as (k & rest & Htodo & Hin).
  exists i, c, k, rest, ch. repeat split; try done.
  eapply in_flight_same_chan; eauto using wf_request_chan.
Qed.

(** The worker's send on a reply channel finds its receiver waiting. *)
Lemma reply_enabled c0 cm0 tr st x ch v :
  invariant c0 cm0 tr st → wk st = Replying x ch v → aborted st = None →
  ∃ i k evs st',
    step st evs st'
    ∧ evs = [Ev Worker (AReply ch v); Ev (Caller i) (AReturn k ch (result_of V k v))].
Proof.
  intros I Hw Hab.
  destruct (waiting_owner _ _ _ _ x I) as (i & c & k & rest & ch' & Hi & Hat & Htodo & Hx).
  { unfold in_flight. rewrite Hw. apply elem_of_cons. by left. }
  destruct (inv_replying _ _ _ _ I _ _ _ Hw) as (h & cm & h' & _ & Hb).
  apply (wf_reply_chan WF) in Hb. rewrite Hx, (wf_request_chan WF) in Hb.
  simplify_eq. exists i, k. eexists _, _. split; [|done]. by eapply step_reply.
Qed.

(** Once the worker has returned, it takes part in no step. *)
Lemma returned_step st evs st' :
  wk st = Returned → step st evs st' →
  wk st' = Returned ∧ ∀ e, e ∈ evs → actor e ≠ Worker.
Proof.
  intros Hw Hs.
  destruct Hs; cbn [wk]; try congruence; (split; [done|]);
    intros e He; decompose_list_elem_of; by simplify_eq.
Qed.

Lemma returned_steps st tr st' :
  wk st = Returned → steps st tr st' →
  wk st' = Returned ∧ ∀ e, e ∈ tr → actor e ≠ Worker.
Proof.
  intros Hw Hs. induction Hs as [|? ? ? ? ? ? IH Hstep].
  - split; [done|]. intros e He. by apply elem_of_nil in He.
  - destruct (IH Hw) as [Hw' Hno].
    destruct (returned_step _ _ _ Hw' Hstep) as [? Hno'].
    split; [done|]. intros e [?|?]%elem_of_app; eauto.
Qed.

(** An idle worker takes the oldest buffered request, closed channel or not. *)
Lemma fire_worker_dequeue st x rest :
  aborted st = None → wk st = Idle → GoChan.buf (inbound st) = x :: rest →
  fire Worker st
  = Some ([Ev Worker (ARecv x)],
          State (self st) (mem st)
            (GoChan.Chan (GoChan.cap (inbound st)) rest (GoChan.closed (inbound st)))
            (Running x) (callers st) (next_chan st) None).
Proof.
  intros Hab Hw Hb. unfold fire, GoChan.recv. by rewrite Hab, Hw, Hb.
Qed.

(** An idle worker that finds the channel closed and empty returns, if its
    loop tests for it. *)
Lemma fire_worker_exit st :
  exits_on_close V = true →
  aborted st = None → wk st = Idle →
  GoChan.buf (inbound st) = [] → GoChan.closed (inbound st) = true →
  fire Worker st
  = Some ([Ev Worker AExit],
          State (self st) (mem st) (inbound st) Returned (callers st) (next_chan st) None).
Proof.
  intros He Hab Hw Hb Hc. unfold fire, GoChan.recv. by rewrite Hab, Hw, Hb, Hc, He.
Qed.

(** [Close()] on a closed channel aborts the process. *)
Lemma fire_close_closed st i c rest :
  aborted st = None → callers st !! i = Some c → at_ c = Ready →
  todo c = Close :: rest → GoChan.closed (inbound st) = true →
  fire (Caller i) st
  = Some ([Ev (Caller i) (APanic GoChan.close_of_closed)],
          State (self st) (mem st) (inbound st) (wk st) (callers st) (next_chan st)
            (Some GoChan.close_of_closed)).
Proof.
  intros Hab Hi Hat Htodo Hc. unfold fire.
  rewrite Hab, Hi, Hat, Htodo. unfold GoChan.close. by rewrite Hc.
Qed.

(** A default for schedules that cannot run, so that a run is always an
    execution. *)
Lemma run_or_stay_steps sched st :
  steps st (run_or_stay sched st).1 (run_or_stay sched st).2.
Proof.
  unfold run_or_stay. destruct (run sched st) as [[tr st']|] eqn:E; simpl.
  - by eapply run_sound.
  - constructor.
Qed.

End MoreFacts.

(** A buffered request is received, served and answered, whatever happened
    to the channel after it was sent. *)
Lemma buffered_request_served {V : coordinator}
    (direct : self_t V → call V → heap_t V → heap_t V * result V)
    c0 cm0 (tr : list (event V)) (st : state V) x rest :
  well_formed V → serves V direct →
  invariant c0 cm0 tr st →
  aborted st = None → wk st = Idle → GoChan.buf (inbound st) = x :: rest →
  ∃ i k ch v st',
    x = request_of V k ch
    ∧ steps st [Ev Worker (ARecv x); Ev Worker (AExec x (mem st));
                Ev Worker (AReply ch v); Ev (Caller i) (AReturn k ch (result_of V k v))] st'
    ∧ result_of V k v = (direct (self st) k (mem st)).2
    ∧ mem st' = (direct (self st) k (mem st)).1
    ∧ wk st' = Idle ∧ GoChan.buf (inbound st') = rest.
Proof.
  intros WF SV I Hab Hw Hb.
  destruct (waiting_owner WF _ _ _ _ x I) as (i & c & k & rest' & ch & Hi & Hat & Htodo & ->).
  { unfold in_flight. rewrite Hb, Hw. apply elem_of_cons. by left. }
  destruct (SV (self st) (mem st) k ch) as (v & Hbody & Hres).
  exists i, k, ch, v. eexists. split; [done|]. split; [|shelve].
  change [Ev Worker (ARecv (request_of V k ch));
          Ev Worker (AExec (request_of V k ch) (mem st));
          Ev Worker (AReply ch v);
          Ev (Caller i) (AReturn k ch (result_of V k v))]
    with ([Ev Worker (ARecv (request_of V k ch))]
          ++ [Ev Worker (AExec (request_of V k ch) (mem st))]
          ++ [Ev Worker (AReply ch v);
              Ev (Caller i) (AReturn k ch (result_of V k v))]).
  eapply steps_cons; [by eapply fire_sound, fire_worker_dequeue|].
  eapply steps_cons.
  { match goal with |- step ?s _ _ => by eapply (step_exec _ s) end. }
  eapply steps_one.
  match goal with |- step ?s _ _ => by eapply (step_reply _ s) end.
  Unshelve. by repeat split.
Qed.

(** ** Executions from a constructor *)

Section FromBoot.
Context {V : coordinator}.
Hypothesis WF : well_formed V.
Implicit Types (st : state V) (tr : list (event V)).

Lemma steps_make_events st tr st' e ch n :
  steps st tr st' → e ∈ tr → act e = AMake ch n → n = 0 ∧ ∃ i, actor e = Caller i.
Proof.
  induction 1 as [|? ? ? ? ? ? IH Hs]; intros Hin He.
  - by apply elem_of_nil in Hin.
  - apply elem_of_app in Hin as [?|Hin]; [eauto|].
    destruct Hs; decompose_list_elem_of; simplify_eq; simpl in *; simplify_eq; eauto.
Qed.



Lemma boot_reply_discipline (cm : self_t V) h n c0 progs tr st :
  steps (boot cm h n c0 progs) tr st → reply_discipline tr st.
Proof.
  intros Hs. pose proof (invariant_reachable WF _ _ _ _ _ _ _ Hs) as I.
  pose proof (invariant_NoDup_sent _ _ _ _ I) as Hnd.
  apply NoDup_app in Hnd as (Hsent & _ & _).
  repeat split.
  - eapply steps_make_events; eauto.
  - eapply steps_make_events; eauto.
  - eauto using invariant_NoDup_made.
  - done.
  - intros ch Hch. rewrite (inv_fresh _ _ _ _ I). apply elem_of_app. by left.
  - apply (inv_received _ _ _ _ I).
  - rewrite (inv_sent _ _ _ _ I) in Hsent. by apply NoDup_app in Hsent as (? & _).
  - eauto using invariant_NoDup_replied.
  - eauto using steps_reply_actor.
  - intros x ch v Hw Hab. eapply reply_enabled; eauto.
Qed.

Lemma boot_returns (cm : self_t V) h n c0 progs tr st i k ch r :
  steps (boot cm h n c0 progs) tr st →
  Ev (Caller i) (AReturn k ch r) ∈ tr →
  ∃ h1 cm' h2 v,
    Ev Worker (AExec (request_of V k ch) h1) ∈ tr
    ∧ loop_body V cm h1 (request_of V k ch) = Reply cm' h2 ch v
    ∧ r = result_of V k v.
Proof.
  intros Hs. pose proof (invariant_reachable WF _ _ _ _ _ _ _ Hs) as I.
  apply (inv_returns _ _ _ _ I).
Qed.

End FromBoot.

(** ** The code of the two coordinators meets the runtime's conditions *)

Section TypedLaws.
Context {Key Value Map Storage Heap : Type}.
Variable M : ConcurrentMap.MapMethods Key Value Map Storage Heap.

Lemma typed_well_formed : well_formed (ConcurrentMap.code M).
Proof.
  split.
  - by intros [].
  - intros cm h x cm' h' ch v. destruct x; simpl; repeat case_match; by intros [= ? ? <- ?].
  - intros cm h x cm' h' ch v. destruct x; simpl; repeat case_match; by intros [= <- ? ? ?].
Qed.

Lemma typed_serves : serves (ConcurrentMap.code M) (ConcurrentMap.direct M).
Proof.
  intros cm h k ch. destruct k; simpl; repeat case_match; simplify_eq; by eexists.
Qed.

End TypedLaws.

Section UniformLaws.
Context {Any Map Heap : Type}.
Variable M : ChannelConcurrentMap.MapMethods Any Map Heap.

Lemma uniform_well_formed : well_formed (ChannelConcurrentMap.code M).
Proof.
  split.
  - by intros [].
  - intros cm h x cm' h' ch v. destruct x; simpl; repeat case_match;
      (done || by intros [= ? ? <- ?]).
  - intros cm h x cm' h' ch v. destruct x; simpl; repeat case_match;
      (done || by intros [= <- ? ? ?]).
Qed.

Lemma uniform_serves : serves (ChannelConcurrentMap.code M) (ChannelConcurrentMap.direct M).
Proof.
  intros cm h k ch. destruct k; simpl; repeat case_match; simplify_eq; by eexists.
Qed.

End UniformLaws.

(** * The claims *)



(** C5. In both coordinators: every reply channel is made by a caller with
    capacity 0, no channel is made twice and none is sent in two requests;
    the worker has written exactly once to the channel of every request it
    received, in the order of reception, except for the request it still
    holds, and to no channel twice (only the worker writes); and when the
    worker is about to write, the caller of the request is there to receive. *)
Theorem C5_reply_channel_written_once :
  (∀ (Key Value Map Storage Heap : Type)
     (M : ConcurrentMap.MapMethods Key Value Map Storage Heap)
     storage h progs tr st,
     steps (ConcurrentMap.NewConcurrentMap M storage h progs) tr st →
     reply_discipline tr st)
  ∧ (∀ (Any Map Heap : Type) (M : ChannelConcurrentMap.MapMethods Any Map Heap)
       storage h progs tr st,
       steps (ChannelConcurrentMap.NewChannelConcurrentMap M storage h progs) tr st →
       reply_discipline tr st).
Proof.
  split; intros.
  - eapply boot_reply_discipline; eauto using typed_well_formed.
  - eapply boot_reply_discipline; eauto using uniform_well_formed.
Qed.

Lemma C5_reply_channel_written_once_witness :
  (omap made_chan Demo.typed_run.1 = [8; 9; 10; 11; 12; 13; 14]
   ∧ omap replied_chan Demo.typed_run.1 = [8; 9; 10; 11; 12; 13; 14]
   ∧ reply_discipline Demo.typed_run.1 Demo.typed_run.2)
  ∧ (omap made_chan Demo.uniform_exited.1 = [1; 2]
     ∧ omap replied_chan Demo.uniform_exited.1 = [1; 2]
     ∧ reply_discipline Demo.uniform_exited.1 Demo.uniform_exited.2).
Proof.
  split; (split; [vm_compute; reflexivity|]); (split; [vm_compute; reflexivity|]).
  - exact (proj1 C5_reply_channel_written_once _ _ _ _ _ _ _ _ _ _ _
             (run_or_stay_steps Demo.typed_sched Demo.typed_init)).
  - exact (proj2 C5_reply_channel_written_once _ _ _ _ _ _ _ _ _
             (run_or_stay_steps Demo.sched_exited Demo.uniform_init)).
Defined.

(** C6. The request-typed coordinator's [Delete(key)] returns an int, the
    uniform-message coordinator's [Delete(key)] returns a pair (value, found
    flag); in both, what the caller gets is what the underlying Map's
    [Delete] returned when the worker called it for this request (on the
    memory [h1] of that moment). *)
Theorem C6_delete_returns_map_result :
  (∀ (Key Value Map Storage Heap : Type)
     (M : ConcurrentMap.MapMethods Key Value Map Storage Heap)
     storage h progs tr st i key ch r,
     steps (ConcurrentMap.NewConcurrentMap M storage h progs) tr st →
     Ev (V := ConcurrentMap.code M) (Caller i)
       (AReturn (V := ConcurrentMap.code M) (ConcurrentMap.Delete key) ch r) ∈ tr →
     ∃ h1,
       Ev (V := ConcurrentMap.code M) Worker
         (AExec (V := ConcurrentMap.code M)
            (ConcurrentMap.on_deleteCh
               {| ConcurrentMap.dr_key := key; ConcurrentMap.dr_lenCh := ch |}) h1) ∈ tr
       ∧ r = ConcurrentMap.RetInt (ConcurrentMap.Map_Delete M storage key h1).2)
  ∧ (∀ (Any Map Heap : Type) (M : ChannelConcurrentMap.MapMethods Any Map Heap)
       storage h progs tr st i key ch r,
       steps (ChannelConcurrentMap.NewChannelConcurrentMap M storage h progs) tr st →
       Ev (V := ChannelConcurrentMap.code M) (Caller i)
         (AReturn (V := ChannelConcurrentMap.code M)
            (ChannelConcurrentMap.Delete key) ch r) ∈ tr →
       ∃ h1,
         Ev (V := ChannelConcurrentMap.code M) Worker
           (AExec (V := ChannelConcurrentMap.code M)
              (ChannelConcurrentMap.deleteRequest key ch) h1) ∈ tr
         ∧ r = ChannelConcurrentMap.RetPair
                 (ChannelConcurrentMap.Map_Delete M storage key h1).2.1
                 (ChannelConcurrentMap.Map_Delete M storage key h1).2.2).
Proof.
  split.
  - intros Key Value Map Storage Heap M storage h progs tr st i key ch r Hs Hin.
    destruct (boot_returns (typed_well_formed M) _ _ _ _ _ _ _ _ _ _ _ Hs Hin)
      as (h1 & cm' & h2 & v & Hex & Hb & ->).
    exists h1. split; [done|]. simpl in Hb.
    destruct (ConcurrentMap.Map_Delete M storage key h1) as [h' n]. by simplify_eq.
  - intros Any Map Heap M storage h progs tr st i key ch r Hs Hin.
    destruct (boot_returns (uniform_well_formed M) _ _ _ _ _ _ _ _ _ _ _ Hs Hin)
      as (h1 & cm' & h2 & v & Hex & Hb & ->).
    exists h1. split; [done|]. simpl in Hb.
    destruct (ChannelConcurrentMap.Map_Delete M storage key h1) as [h' [p f]].
    by simplify_eq.
Qed.

Lemma C6_delete_returns_map_result_witness :
  (∃ h1,
     Ev (V := ConcurrentMap.code Demo.typed_map) Worker
       (AExec (V := ConcurrentMap.code Demo.typed_map)
          (ConcurrentMap.on_deleteCh
             {| ConcurrentMap.dr_key := "a"%string; ConcurrentMap.dr_lenCh := 12 |}) h1)
     ∈ Demo.typed_run.1
     ∧ (ConcurrentMap.RetInt 0%Z : result (ConcurrentMap.code Demo.typed_map))
       = ConcurrentMap.RetInt (ConcurrentMap.Map_Delete Demo.typed_map 0 "a"%string h1).2)
  ∧ (∃ h1,
       Ev (V := ChannelConcurrentMap.code Demo.uniform_map) Worker
         (AExec (V := ChannelConcurrentMap.code Demo.uniform_map)
            (ChannelConcurrentMap.deleteRequest 7%Z 3) h1)
       ∈ Demo.uniform_single_run.1
       ∧ (ChannelConcurrentMap.RetPair 1%Z true
          : result (ChannelConcurrentMap.code Demo.uniform_map))
         = ChannelConcurrentMap.RetPair
             (ChannelConcurrentMap.Map_Delete Demo.uniform_map 0 7%Z h1).2.1
             (ChannelConcurrentMap.Map_Delete Demo.uniform_map 0 7%Z h1).2.2).
Proof.
  split.
  - apply (proj1 C6_delete_returns_map_result _ _ _ _ _ Demo.typed_map 0 _ _
             Demo.typed_run.1 Demo.typed_run.2 0 "a"%string 12 (ConcurrentMap.RetInt 0%Z)
             (run_or_stay_steps Demo.typed_sched Demo.typed_init)).
    apply (list_elem_of_lookup_2 _ 29). vm_compute. reflexivity.
  - apply (proj2 C6_delete_returns_map_result _ _ _ Demo.uniform_map 0 _ _
             Demo.uniform_single_run.1 Demo.uniform_single_run.2 0 7%Z 3
             (ChannelConcurrentMap.RetPair 1%Z true)
             (run_or_stay_steps _ Demo.uniform_single)).
    apply (list_elem_of_lookup_2 _ 17). vm_compute. reflexivity.
Defined.

(** C9. The [storage] field of a [concurrentMap] made by
    [NewConcurrentMap(m)] is [m] in every state the coordinator reaches (the
    struct is never changed), and every call of [UnderlyingMap()] returns
    [m]. *)
Theorem C9_storage_field_fixed
    (Key Value Map Storage Heap : Type)
    (M : ConcurrentMap.MapMethods Key Value Map Storage Heap)
    m h progs tr st :
  steps (ConcurrentMap.NewConcurrentMap M m h progs) tr st →
  self st = ConcurrentMap.NewConcurrentMap_struct m
  ∧ ConcurrentMap.storage (self st) = m
  ∧ ∀ i ch r,
      Ev (V := ConcurrentMap.code M) (Caller i)
        (AReturn (V := ConcurrentMap.code M) ConcurrentMap.UnderlyingMap ch r) ∈ tr →
      r = ConcurrentMap.RetMap m.
Proof.
  intros Hs.
  pose proof (invariant_reachable (typed_well_formed M) _ _ _ _ _ _ _ Hs) as I.
  pose proof (inv_self _ _ _ _ I) as Hself.
  split; [done|]. split; [by rewrite Hself|].
  intros i ch r Hin.
  destruct (boot_returns (typed_well_formed M) _ _ _ _ _ _ _ _ _ _ _ Hs Hin)
    as (h1 & cm' & h2 & v & Hex & Hb & ->).
  simpl in Hb. by simplify_eq.
Qed.

Lemma C9_storage_field_fixed_witness :
  Demo.typed_run.1 !! 23
  = Some (Ev (V := ConcurrentMap.code Demo.typed_map) (Caller 1)
            (AReturn (V := ConcurrentMap.code Demo.typed_map)
               ConcurrentMap.UnderlyingMap 11 (ConcurrentMap.RetMap 0)))
  ∧ self Demo.typed_run.2 = ConcurrentMap.NewConcurrentMap_struct 0
  ∧ ConcurrentMap.storage (self Demo.typed_run.2) = 0
  ∧ ∀ i ch r,
      Ev (V := ConcurrentMap.code Demo.typed_map) (Caller i)
        (AReturn (V := ConcurrentMap.code Demo.typed_map) ConcurrentMap.UnderlyingMap ch r)
      ∈ Demo.typed_run.1 →
      r = ConcurrentMap.RetMap 0.
Proof.
  split; [vm_compute; reflexivity|].
  exact (C9_storage_field_fixed _ _ _ _ _ Demo.typed_map 0 _ _ _ _
           (run_or_stay_steps Demo.typed_sched Demo.typed_init)).
Defined.

(** C7, as the code has it. What [UnderlyingStorage()] returns is the
    container that the underlying Map's own [UnderlyingStorage()] returned
    when the worker called it, passed on as it is: the coordinator makes no
    copy of it. *)
Theorem C7_underlying_storage_passed_on
    (Key Value Map Storage Heap : Type)
    (M : ConcurrentMap.MapMethods Key Value Map Storage Heap)
    storage h progs tr st i ch r :
  steps (ConcurrentMap.NewConcurrentMap M storage h progs) tr st →
  Ev (V := ConcurrentMap.code M) (Caller i)
    (AReturn (V := ConcurrentMap.code M) ConcurrentMap.UnderlyingStorage ch r) ∈ tr →
  ∃ h1,
    Ev (V := ConcurrentMap.code M) Worker
      (AExec (V := ConcurrentMap.code M) (ConcurrentMap.on_accessStorageCh ch) h1) ∈ tr
    ∧ r = ConcurrentMap.RetStorage (ConcurrentMap.Map_UnderlyingStorage M storage h1).2.
Proof.
  intros Hs Hin.
  destruct (boot_returns (typed_well_formed M) _ _ _ _ _ _ _ _ _ _ _ Hs Hin)
    as (h1 & cm' & h2 & v & Hex & Hb & ->).
  exists h1. split; [done|]. simpl in Hb.
  destruct (ConcurrentMap.Map_UnderlyingStorage M storage h1) as [h' s]. by simplify_eq.
Qed.

Lemma C7_underlying_storage_passed_on_witness :
  ∃ h1,
    Ev (V := ConcurrentMap.code Demo.typed_map) Worker
      (AExec (V := ConcurrentMap.code Demo.typed_map) (ConcurrentMap.on_accessStorageCh 9) h1)
    ∈ Demo.typed_run.1
    ∧ (ConcurrentMap.RetStorage 0 : result (ConcurrentMap.code Demo.typed_map))
      = ConcurrentMap.RetStorage
          (ConcurrentMap.Map_UnderlyingStorage Demo.typed_map 0 h1).2.
Proof.
  apply (C7_underlying_storage_passed_on _ _ _ _ _ Demo.typed_map 0 _ _
           Demo.typed_run.1 Demo.typed_run.2 1 9 (ConcurrentMap.RetStorage 0)
           (run_or_stay_steps Demo.typed_sched Demo.typed_init)).
  apply (list_elem_of_lookup_2 _ 11). vm_compute. reflexivity.
Defined.

(** C7, as stated, fails: with a Map whose [UnderlyingStorage()] returns the
    Go map it holds, the container a caller got from the coordinator reads
    differently after a later [Set] served by the worker. *)
Lemma C7_snapshot_view_counterexample :
  Demo.storage_taken.2.(callers)
  = [MkCaller [Request (V := ConcurrentMap.code Demo.typed_map)
                 (ConcurrentMap.Set_ "a"%string 1%Z)]
       [ConcurrentMap.RetStorage 0] Ready]
  ∧ BasicMap.contents 0 (mem Demo.storage_taken.2) !! "a"%string = None
  ∧ BasicMap.contents 0 (mem Demo.storage_later.2) !! "a"%string = Some 1%Z
  ∧ ¬ snapshot_view Demo.typed_map BasicMap.contents.
Proof.
  split; [vm_compute; reflexivity|].
  split; [vm_compute; reflexivity|].
  split; [vm_compute; reflexivity|].
  intros Hsnap.
  assert (Demo.storage_taken.1 !! 5
          = Some (Ev (V := ConcurrentMap.code Demo.typed_map) (Caller 0)
                    (AReturn (V := ConcurrentMap.code Demo.typed_map)
                       ConcurrentMap.UnderlyingStorage 8 (ConcurrentMap.RetStorage 0))))
    as Hret by (vm_compute; reflexivity).
  apply list_elem_of_lookup_2 in Hret.
  pose proof (Hsnap 0 [∅]
                [[ConcurrentMap.UnderlyingStorage; ConcurrentMap.Set_ "a"%string 1%Z]]
                Demo.storage_taken.1 Demo.storage_taken.2 0 8 0
                Demo.storage_later.1 Demo.storage_later.2
                (run_or_stay_steps (Demo.typed_round 0) Demo.storage_init) Hret
                (run_or_stay_steps (Demo.typed_round 0) Demo.storage_taken.2)) as Heq.
  apply (f_equal (λ m : gmap string Z, m !! "a"%string)) in Heq.
  vm_compute in Heq. discriminate Heq.
Qed.

(** The Map of the runs behaves as the reference maps. *)
Lemma typed_map_as_reference k (r : gmap string Z) (h : list (gmap string Z)) :
  ConcurrentMap.is_set_get_delete k = true → h = [r] →
  (ConcurrentMap.direct Demo.typed_map (ConcurrentMap.NewConcurrentMap_struct 0) k h).1
  = [(Demo.reference_typed k r).1]
  ∧ (ConcurrentMap.direct Demo.typed_map (ConcurrentMap.NewConcurrentMap_struct 0) k h).2
    = (Demo.reference_typed k r).2.
Proof.
  intros Hk ->. destruct k; try done; simpl; unfold BasicMap.contents; simpl;
    by destruct (r !! key).
Qed.

Lemma uniform_map_as_reference k (r : gmap Z Z) (h : list (gmap Z Z)) :
  ChannelConcurrentMap.is_set_get_delete k = true → h = [r] →
  (ChannelConcurrentMap.direct Demo.uniform_map
     (ChannelConcurrentMap.NewChannelConcurrentMap_struct 0) k h).1
  = [(Demo.reference_uniform k r).1]
  ∧ (ChannelConcurrentMap.direct Demo.uniform_map
       (ChannelConcurrentMap.NewChannelConcurrentMap_struct 0) k h).2
    = (Demo.reference_uniform k r).2.
Proof.
  intros Hk ->. destruct k; try done; simpl; unfold BasicMap.contents; simpl;
    by destruct (r !! key).
Qed.

(** C2. One caller issues a sequence [ks] of [Set]/[Get]/[Delete] calls
    against a coordinator (either variant) whose Map behaves as a reference
    single-threaded map ([sim] relates the two, call by call). Then in every
    execution the results the caller has received so far are the first
    results of the reference map run on [ks] in order, all of them once the
    caller is through; and some execution gets the caller through. *)
Theorem C2_single_caller_refines_reference :
  (∀ (Key Value Map Storage Heap : Type)
     (M : ConcurrentMap.MapMethods Key Value Map Storage Heap)
     (R : Type)
     (apply : call (ConcurrentMap.code M) → R → R * result (ConcurrentMap.code M))
     (sim : R → Heap → Prop) storage h r ks,
     Forall (λ k, ConcurrentMap.is_set_get_delete k = true) ks →
     (∀ k r h, ConcurrentMap.is_set_get_delete k = true → sim r h →
        sim (apply k r).1
          (ConcurrentMap.direct M (ConcurrentMap.NewConcurrentMap_struct storage) k h).1
        ∧ (ConcurrentMap.direct M (ConcurrentMap.NewConcurrentMap_struct storage) k h).2
          = (apply k r).2) →
     sim r h →
     observes (ConcurrentMap.NewConcurrentMap M storage h [ks])
       (reference_run apply ks r))
  ∧ (∀ (Any Map Heap : Type) (M : ChannelConcurrentMap.MapMethods Any Map Heap)
       (R : Type)
       (apply : call (ChannelConcurrentMap.code M) → R
                → R * result (ChannelConcurrentMap.code M))
       (sim : R → Heap → Prop) storage h r ks,
       Forall (λ k, ChannelConcurrentMap.is_set_get_delete k = true) ks →
       (∀ k r h, ChannelConcurrentMap.is_set_get_delete k = true → sim r h →
          sim (apply k r).1
            (ChannelConcurrentMap.direct M
               (ChannelConcurrentMap.NewChannelConcurrentMap_struct storage) k h).1
          ∧ (ChannelConcurrentMap.direct M
               (ChannelConcurrentMap.NewChannelConcurrentMap_struct storage) k h).2
            = (apply k r).2) →
       sim r h →
       observes
         (ChannelConcurrentMap.NewChannelConcurrentMap M storage h
            [calls (V := ChannelConcurrentMap.code M) ks])
         (reference_run apply ks r)).
Proof.
  split.
  - intros Key Value Map Storage Heap M R apply sim storage h r ks Hks Hsim Hrh.
    rewrite <- (direct_run_reference (V := ConcurrentMap.code M)
                  (ConcurrentMap.direct M) apply sim ConcurrentMap.is_set_get_delete
                  (ConcurrentMap.NewConcurrentMap_struct storage) ks r h Hsim Hks Hrh).
    apply (single_observes (V := ConcurrentMap.code M) _ (typed_serves M)).
  - intros Any Map Heap M R apply sim storage h r ks Hks Hsim Hrh.
    rewrite <- (direct_run_reference (V := ChannelConcurrentMap.code M)
                  (ChannelConcurrentMap.direct M) apply sim
                  ChannelConcurrentMap.is_set_get_delete
                  (ChannelConcurrentMap.NewChannelConcurrentMap_struct storage)
                  ks r h Hsim Hks Hrh).
    apply (single_observes (V := ChannelConcurrentMap.code M) _ (uniform_serves M)).
Qed.

Lemma C2_single_caller_refines_reference_witness :
  (reference_run Demo.reference_typed Demo.typed_calls ∅
   = [ConcurrentMap.RetInt 1%Z; ConcurrentMap.RetGet 1%Z true;
      ConcurrentMap.RetInt 0%Z; ConcurrentMap.RetGet 0%Z false]
   ∧ callers Demo.typed_single_run.2
     = [MkCaller (V := ConcurrentMap.code Demo.typed_map) []
          (reference_run Demo.reference_typed Demo.typed_calls ∅) Ready]
   ∧ observes Demo.typed_single (reference_run Demo.reference_typed Demo.typed_calls ∅))
  ∧ (reference_run Demo.reference_uniform Demo.uniform_calls ∅
     = [ChannelConcurrentMap.RetPair 0%Z false; ChannelConcurrentMap.RetPair 1%Z true;
        ChannelConcurrentMap.RetPair 1%Z true; ChannelConcurrentMap.RetPair 0%Z false]
     ∧ callers Demo.uniform_single_run.2
       = [MkCaller (V := ChannelConcurrentMap.code Demo.uniform_map) []
            (reference_run Demo.reference_uniform Demo.uniform_calls ∅) Ready]
     ∧ observes Demo.uniform_single
         (reference_run Demo.reference_uniform Demo.uniform_calls ∅)).
Proof.
  split; (split; [vm_compute; reflexivity|]); (split; [vm_compute; reflexivity|]).
  - apply (proj1 C2_single_caller_refines_reference _ _ _ _ _ Demo.typed_map
             (gmap string Z) Demo.reference_typed (λ r h, h = [r]) 0 [∅] ∅
             Demo.typed_calls).
    + repeat constructor.
    + intros k r h Hk Hh.
      destruct (typed_map_as_reference k r h Hk Hh) as [-> ->]. done.
    + done.
  - apply (proj2 C2_single_caller_refines_reference _ _ _ Demo.uniform_map
             (gmap Z Z) Demo.reference_uniform (λ r h, h = [r]) 0 [∅] ∅
             Demo.uniform_calls).
    + repeat constructor.
    + intros k r h Hk Hh.
      destruct (uniform_map_as_reference k r h Hk Hh) as [-> ->]. done.
    + done.
Defined.

(** C3. In the uniform-message coordinator: on a message of a type the switch
    does not name, the loop body panics with "Unrecognized req type " followed
    by the type; a worker that holds such a message aborts the process with
    that text in its next step, it never goes on to another message; and on
    each of the eight request types the loop body does not panic: it replies
    on the channel of the request. *)
Theorem C3_unrecognized_message_aborts
    (Any Map Heap : Type) (M : ChannelConcurrentMap.MapMethods Any Map Heap) :
  (∀ ccm h request,
     ChannelConcurrentMap.recognized request = false →
     ∃ ty, request = ChannelConcurrentMap.otherType ty
           ∧ ChannelConcurrentMap.loopMap M ccm h request
             = Panic (String.append "Unrecognized req type " ty))
  ∧ (∀ (st : state (ChannelConcurrentMap.code M)) request,
       aborted st = None → wk st = Running request →
       ChannelConcurrentMap.recognized request = false →
       ∃ ty, request = ChannelConcurrentMap.otherType ty
             ∧ fire Worker st
               = Some ([Ev Worker (AExec request (mem st));
                        Ev Worker (APanic (String.append "Unrecognized req type " ty))],
                       State (self st) (mem st) (inbound st) (wk st) (callers st)
                         (next_chan st)
                         (Some (String.append "Unrecognized req type " ty)))
             ∧ ∀ evs st', step st evs st' → (∃ e, e ∈ evs ∧ actor e = Worker) →
                 aborted st' = Some (String.append "Unrecognized req type " ty)
                 ∧ wk st' = Running request)
  ∧ (∀ ccm h request,
       ChannelConcurrentMap.recognized request = true →
       ∃ h' ch v,
         ChannelConcurrentMap.loopMap M ccm h request = Reply ccm h' ch v
         ∧ ChannelConcurrentMap.reply_channel request = Some ch).
Proof.
  split; [|split].
  - intros ccm h [] Hr; try done. by eexists.
  - intros st [] Hab Hw Hr; try done. exists ty. split; [done|]. split.
    + unfold fire. rewrite Hab, Hw. done.
    + intros evs st' Hs (e & He & Hact).
      destruct Hs; decompose_list_elem_of; simplify_eq; simpl in *; try congruence.
      all: rewrite Hw in *; simplify_eq; simpl in *; by simplify_eq.
  - intros ccm h [] Hr; try done; simpl; repeat case_match; by eexists _, _, _.
Qed.

Lemma C3_unrecognized_message_aborts_witness :
  ∃ ty,
    Demo.stray_message = ChannelConcurrentMap.otherType ty
    ∧ wk Demo.stray = Running Demo.stray_message
    ∧ option_map (λ p, aborted p.2) (fire Worker Demo.stray)
      = Some (Some (String.append "Unrecognized req type " ty))
    ∧ String.append "Unrecognized req type " ty
      = "Unrecognized req type *gomap.pingRequest"%string.
Proof.
  destruct (proj1 (proj2 (C3_unrecognized_message_aborts _ _ _ Demo.uniform_map))
              Demo.stray Demo.stray_message eq_refl eq_refl eq_refl)
    as (ty & Heq & Hfire & _).
  exists ty. split; [done|]. split; [done|]. split.
  - by rewrite Hfire.
  - injection Heq as <-. reflexivity.
Defined.

(** C4. In the uniform-message coordinator: the step of a [Close()] closes
    the inbound channel (and leaves what is buffered in it); an idle worker
    whose receive finds the channel closed and empty returns in its next
    step; and once the worker has returned it takes part in no step: no
    message is received or served any more. *)
Theorem C4_close_terminates_worker
    (Any Map Heap : Type) (M : ChannelConcurrentMap.MapMethods Any Map Heap)
    (st : state (ChannelConcurrentMap.code M)) :
  (∀ i evs st', step st evs st' → Ev (Caller i) AClose ∈ evs →
     ChannelConcurrentMap.Close_ (inbound st) = Some (inbound st')
     ∧ GoChan.closed (inbound st') = true)
  ∧ (aborted st = None → wk st = Idle →
     GoChan.recv (inbound st) = GoChan.RecvClosed →
     fire Worker st
     = Some ([Ev Worker AExit],
             State (self st) (mem st) (inbound st) Returned (callers st)
               (next_chan st) None))
  ∧ (wk st = Returned →
     ∀ tr st', steps st tr st' →
       wk st' = Returned ∧ ∀ e, e ∈ tr → actor e ≠ Worker).
Proof.
  split; [|split].
  - intros i evs st' Hs Hin.
    destruct Hs; decompose_list_elem_of; simplify_eq. simpl.
    split; [done|]. by apply chan_close_Some in H3 as (_ & _ & ? & _).
  - intros Hab Hw [Hb Hc]%chan_recv_Closed. by apply fire_worker_exit.
  - intros Hw tr st' Hs. by eapply returned_steps.
Qed.

Lemma C4_close_terminates_worker_witness :
  (wk Demo.uniform_served.2 = Idle
   ∧ GoChan.recv (inbound Demo.uniform_served.2) = GoChan.RecvClosed
   ∧ option_map (λ p, wk p.2) (fire Worker Demo.uniform_served.2) = Some Returned)
  ∧ (wk Demo.uniform_exited.2 = Returned
     ∧ length (run_or_stay [Caller 0] Demo.uniform_exited.2).1 = 1
     ∧ wk (run_or_stay [Caller 0] Demo.uniform_exited.2).2 = Returned
     ∧ ∀ e, e ∈ (run_or_stay [Caller 0] Demo.uniform_exited.2).1 → actor e ≠ Worker).
Proof.
  split.
  - split; [vm_compute; reflexivity|]. split; [vm_compute; reflexivity|].
    rewrite (proj1 (proj2 (C4_close_terminates_worker _ _ _ Demo.uniform_map
                             Demo.uniform_served.2))
               ltac:(vm_compute; reflexivity) ltac:(vm_compute; reflexivity)
               ltac:(vm_compute; reflexivity)).
    reflexivity.
  - split; [vm_compute; reflexivity|]. split; [vm_compute; reflexivity|].
    exact (proj2 (proj2 (C4_close_terminates_worker _ _ _ Demo.uniform_map
                           Demo.uniform_exited.2))
             ltac:(vm_compute; reflexivity) _ _
             (run_or_stay_steps [Caller 0] Demo.uniform_exited.2)).
Defined.

(** C8. In the uniform-message coordinator, [Close()] is not idempotent:
    closing a channel that a first [Close()] has closed is a panic, and once
    some caller's [Close()] has gone through, a caller that calls [Close()]
    again aborts the process with "close of closed channel" in the step of
    that call; the call does nothing else. *)
Theorem C8_second_close_aborts
    (Any Map Heap : Type) (M : ChannelConcurrentMap.MapMethods Any Map Heap)
    storage h progs tr st :
  steps (ChannelConcurrentMap.NewChannelConcurrentMap M storage h progs) tr st →
  (∃ i, Ev (V := ChannelConcurrentMap.code M) (Caller i)
          (AClose (V := ChannelConcurrentMap.code M)) ∈ tr) →
  (∀ q q', ChannelConcurrentMap.Close_ (Any := Any) q = Some q' →
           ChannelConcurrentMap.Close_ q' = None)
  ∧ ChannelConcurrentMap.Close_ (inbound st) = None
  ∧ ∀ j c rest,
      aborted st = None → callers st !! j = Some c → at_ c = Ready →
      todo c = Close :: rest →
      fire (Caller j) st
      = Some ([Ev (Caller j) (APanic "close of closed channel")],
              State (self st) (mem st) (inbound st) (wk st) (callers st) (next_chan st)
                (Some "close of closed channel"%string))
      ∧ ∀ evs st', step st evs st' → (∃ e, e ∈ evs ∧ actor e = Caller j) →
          st' = State (self st) (mem st) (inbound st) (wk st) (callers st) (next_chan st)
                  (Some "close of closed channel"%string).
Proof.
  intros Hs Hclosed.
  pose proof (invariant_reachable (uniform_well_formed M) _ _ _ _ _ _ _ Hs) as I.
  pose proof (inv_closed _ _ _ _ I Hclosed) as Hc.
  split; [|split].
  - intros q q' (_ & _ & Hq & _)%chan_close_Some. by apply chan_close_None.
  - by apply chan_close_None.
  - intros j c rest Hab Hj Hat Htodo. split.
    + by eapply fire_close_closed.
    + intros evs st' Hstep (e & He & Hact).
      destruct Hstep; decompose_list_elem_of; simplify_eq; simpl in *; simplify_eq;
        try congruence; try reflexivity.
      match goal with H : GoChan.close _ = Some _ |- _ =>
        apply chan_close_Some in H as (? & _) end.
      congruence.
Qed.

Lemma C8_second_close_aborts_witness :
  (GoChan.closed (inbound Demo.uniform_init) = false
   ∧ callers Demo.uniform_exited.2 !! 0
     = Some (MkCaller (V := ChannelConcurrentMap.code Demo.uniform_map) [Close]
               [ChannelConcurrentMap.RetPair 0%Z false] Ready)
   ∧ aborted Demo.uniform_reclosed.2 = Some "close of closed channel"%string)
  ∧ ChannelConcurrentMap.Close_ (inbound Demo.uniform_exited.2) = None
  ∧ option_map (λ p, aborted p.2) (fire (Caller 0) Demo.uniform_exited.2)
    = Some (Some "close of closed channel"%string).
Proof.
  split; [repeat split; vm_compute; reflexivity|].
  destruct (C8_second_close_aborts _ _ _ Demo.uniform_map 0 [∅] _
              Demo.uniform_exited.1 Demo.uniform_exited.2
              (run_or_stay_steps Demo.sched_exited Demo.uniform_init))
    as (_ & Hc & Hfire).
  { exists 0. apply (list_elem_of_lookup_2 _ 8). vm_compute. reflexivity. }
  split; [exact Hc|].
  destruct (Hfire 0 _ [] ltac:(vm_compute; reflexivity) ltac:(vm_compute; reflexivity)
              eq_refl eq_refl) as [-> _].
  reflexivity.
Defined.

(** C10. In the uniform-message coordinator, [Close()] leaves the buffered
    requests in the channel; an idle worker that finds a request in the
    buffer receives it (closed channel or not), executes it on the Map and
    answers its caller, who gets what the direct call would return, before it
    looks at the channel again; and in any state in which the worker has
    returned the buffer is empty, every request that was sent has been
    answered and no caller waits for an answer. *)
Theorem C10_buffered_request_survives_close
    (Any Map Heap : Type) (M : ChannelConcurrentMap.MapMethods Any Map Heap)
    storage h progs tr st :
  steps (ChannelConcurrentMap.NewChannelConcurrentMap M storage h progs) tr st →
  (∀ i evs st', step st evs st' →
     Ev (V := ChannelConcurrentMap.code M) (Caller i) AClose ∈ evs →
     GoChan.buf (inbound st') = GoChan.buf (inbound st)
     ∧ GoChan.closed (inbound st') = true)
  ∧ (∀ x rest,
       aborted st = None → wk st = Idle → GoChan.buf (inbound st) = x :: rest →
       fire Worker st
       = Some ([Ev Worker (ARecv x)],
               State (self st) (mem st)
                 (GoChan.Chan (GoChan.cap (inbound st)) rest (GoChan.closed (inbound st)))
                 (Running x) (callers st) (next_chan st) None)
       ∧ ∃ i (k : call (ChannelConcurrentMap.code M)) ch
           (v : reply (ChannelConcurrentMap.code M)) st',
           x = ChannelConcurrentMap.send_of k ch
           ∧ steps st
               [Ev Worker (ARecv x); Ev Worker (AExec x (mem st));
                Ev Worker (AReply ch v);
                Ev (Caller i)
                  (AReturn k ch (result_of (ChannelConcurrentMap.code M) k v))] st'
           ∧ ChannelConcurrentMap.return_of k v
             = (ChannelConcurrentMap.direct M (self st) k (mem st)).2
           ∧ mem st' = (ChannelConcurrentMap.direct M (self st) k (mem st)).1
           ∧ wk st' = Idle ∧ GoChan.buf (inbound st') = rest)
  ∧ (wk st = Returned →
     GoChan.buf (inbound st) = []
     ∧ omap sent_chan tr = omap replied_chan tr
     ∧ ∀ c ch, c ∈ callers st → at_ c ≠ Waiting ch).
Proof.
  intros Hs.
  pose proof (invariant_reachable (uniform_well_formed M) _ _ _ _ _ _ _ Hs) as I.
  split; [|split].
  - intros i evs st' Hstep Hin.
    destruct Hstep; decompose_list_elem_of; simplify_eq. simpl.
    match goal with H : GoChan.close _ = Some _ |- _ =>
      by apply chan_close_Some in H as (_ & ? & ? & _) end.
  - intros x rest Hab Hw Hb. split; [by apply fire_worker_dequeue|].
    apply (buffered_request_served (V := ChannelConcurrentMap.code M)
             (ChannelConcurrentMap.direct M) _ _ tr st x rest
             (uniform_well_formed M) (uniform_serves M) I Hab Hw Hb).
  - intros Hw. destruct (inv_exit _ _ _ _ I Hw) as [_ Hb].
    assert (in_flight st = []) as Hfl by (unfold in_flight; by rewrite Hw, Hb).
    split; [done|]. split.
    + rewrite (invariant_sent_split _ _ _ _ I), Hfl. simpl. by rewrite app_nil_r.
    + intros c ch Hc Hat.
      pose proof (inv_waiting _ _ _ _ I) as Hperm. rewrite Hfl in Hperm. simpl in Hperm.
      apply Permutation_nil_r in Hperm.
      assert (ch ∈ omap held_waiting (callers st)) as Hin.
      { apply list_elem_of_omap. exists c. split; [done|].
        unfold held_waiting. by rewrite Hat. }
      rewrite Hperm in Hin. by apply elem_of_nil in Hin.
Qed.

Lemma C10_buffered_request_survives_close_witness :
  (GoChan.closed (inbound Demo.uniform_closed.2) = true
   ∧ GoChan.buf (inbound Demo.uniform_closed.2)
     = [ChannelConcurrentMap.getRequest 7%Z 2])
  ∧ (option_map (λ p, wk p.2) (fire Worker Demo.uniform_closed.2)
     = Some (Running (V := ChannelConcurrentMap.code Demo.uniform_map)
               (ChannelConcurrentMap.getRequest 7%Z 2)))
  ∧ (∃ i (k : call (ChannelConcurrentMap.code Demo.uniform_map)) ch
       (v : reply (ChannelConcurrentMap.code Demo.uniform_map)) st',
       ChannelConcurrentMap.getRequest 7%Z 2 = ChannelConcurrentMap.send_of k ch
       ∧ steps Demo.uniform_closed.2
           [Ev Worker (ARecv (V := ChannelConcurrentMap.code Demo.uniform_map)
                         (ChannelConcurrentMap.getRequest 7%Z 2));
            Ev Worker (AExec (V := ChannelConcurrentMap.code Demo.uniform_map)
                         (ChannelConcurrentMap.getRequest 7%Z 2)
                         (mem Demo.uniform_closed.2));
            Ev Worker (AReply ch v);
            Ev (Caller i)
              (AReturn k ch
                 (result_of (ChannelConcurrentMap.code Demo.uniform_map) k v))] st'
       ∧ ChannelConcurrentMap.return_of k v
         = (ChannelConcurrentMap.direct Demo.uniform_map (self Demo.uniform_closed.2) k
              (mem Demo.uniform_closed.2)).2
       ∧ mem st'
         = (ChannelConcurrentMap.direct Demo.uniform_map (self Demo.uniform_closed.2) k
              (mem Demo.uniform_closed.2)).1
       ∧ wk st' = Idle ∧ GoChan.buf (inbound st') = []).
Proof.
  split; [split; vm_compute; reflexivity|].
  destruct (proj1 (proj2 (C10_buffered_request_survives_close _ _ _ Demo.uniform_map
                            0 [∅] _ Demo.uniform_closed.1 Demo.uniform_closed.2
                            (run_or_stay_steps Demo.sched_closed Demo.uniform_init)))
              (ChannelConcurrentMap.getRequest 7%Z 2) []
              ltac:(vm_compute; reflexivity) ltac:(vm_compute; reflexivity)
              ltac:(vm_compute; reflexivity))
    as [Hfire Hserved].
  split; [by rewrite Hfire|]. exact Hserved.
Defined.

(** * More of the code *)

(** ** What every method returns, and in which order requests are served *)

Section CoverageFacts.
Context {V : coordinator}.
Hypothesis WF : well_formed V.
Implicit Types (st : state V) (tr : list (event V)).

Lemma boot_returns_direct direct (cm : self_t V) h n c0 progs tr st i k ch r :
  serves V direct →
  steps (boot cm h n c0 progs) tr st →
  Ev (Caller i) (AReturn k ch r) ∈ tr →
  ∃ h1, Ev Worker (AExec (request_of V k ch) h1) ∈ tr ∧ r = (direct cm k h1).2.
Proof.
  intros SV Hs Hin.
  destruct (boot_returns WF _ _ _ _ _ _ _ _ _ _ _ Hs Hin)
    as (h1 & cm' & h2 & v & Hex & Hb & ->).
  exists h1. split; [done|].
  destruct (SV cm h1 k ch) as (v' & Hb' & <-). congruence.
Qed.

(** The capacity of the inbound channel is respected. *)
Lemma step_capacity st evs st' :
  step st evs st' →
  length (GoChan.buf (inbound st)) ≤ GoChan.cap (inbound st) →
  GoChan.cap (inbound st') = GoChan.cap (inbound st)
  ∧ length (GoChan.buf (inbound st')) ≤ GoChan.cap (inbound st').
Proof.
  intros Hs Hle. destruct Hs; cbn [inbound]; try done.
  - apply chan_send_Sent in H3 as (_ & -> & _ & -> & ?).
    rewrite length_app. simpl. split; [done|lia].
  - apply chan_recv_Received in H1 as (Hb & _ & ->). rewrite Hb in Hle.
    simpl in Hle. split; [done|lia].
  - apply chan_close_Some in H3 as (_ & -> & _ & ->). done.
Qed.

Lemma boot_capacity (cm : self_t V) h n c0 progs tr st :
  steps (boot cm h n c0 progs) tr st →
  GoChan.cap (inbound st) = n ∧ length (GoChan.buf (inbound st)) ≤ n.
Proof.
  remember (boot cm h n c0 progs) as st0 eqn:Hst0.
  induction 1 as [|? ? ? ? ? ? IH Hs].
  - subst. simpl. split; [done|lia].
  - destruct (IH Hst0) as [Hc Hl].
    destruct (step_capacity _ _ _ Hs) as [Hc' Hl']; [lia|]. split; lia.
Qed.

(** A send that finds the buffer full (and is offered no hand-over) blocks. *)
Lemma fire_send_blocks st j c ch x rest :
  callers st !! j = Some c → at_ c = Made ch →
  GoChan.closed (inbound st) = false →
  GoChan.buf (inbound st) = x :: rest →
  length (GoChan.buf (inbound st)) = GoChan.cap (inbound st) →
  fire (Caller j) st = None.
Proof.
  intros Hj Hat Hc Hb Hfull. unfold fire. destruct (aborted st); [done|].
  rewrite Hj, Hat. destruct (todo c) as [|[k|] os]; try done.
  unfold GoChan.send. rewrite Hc. rewrite decide_False by lia.
  rewrite Hb. by destruct (wk st).
Qed.

(** A send on the closed channel aborts the process. *)
Lemma fire_send_closed st j c ch k rest :
  aborted st = None → callers st !! j = Some c → at_ c = Made ch →
  todo c = Request k :: rest → GoChan.closed (inbound st) = true →
  fire (Caller j) st
  = Some ([Ev (Caller j) (APanic GoChan.send_on_closed)],
          State (self st) (mem st) (inbound st) (wk st) (callers st) (next_chan st)
            (Some GoChan.send_on_closed)).
Proof.
  intros Hab Hj Hat Htodo Hc. unfold fire.
  rewrite Hab, Hj, Hat, Htodo. unfold GoChan.send. by rewrite Hc.
Qed.

End CoverageFacts.

(** X1. Request-typed coordinator: whatever the callers and the schedule,
    every synchronous method ([UnderlyingMap], [UnderlyingStorage], [Clear],
    [Contains], [Delete], [Get], [IsEmpty], [Length], [Set]) returns to its
    caller the result that the same method of the underlying Map gave when
    the worker executed this caller's request (on the memory [h1] of that
    moment). *)
Theorem X1_typed_methods_return_map_results
    (Key Value Map Storage Heap : Type)
    (M : ConcurrentMap.MapMethods Key Value Map Storage Heap)
    storage h progs tr st i k ch r :
  steps (ConcurrentMap.NewConcurrentMap M storage h progs) tr st →
  Ev (V := ConcurrentMap.code M) (Caller i)
    (AReturn (V := ConcurrentMap.code M) k ch r) ∈ tr →
  ∃ h1,
    Ev (V := ConcurrentMap.code M) Worker
      (AExec (V := ConcurrentMap.code M) (ConcurrentMap.send_of k ch) h1) ∈ tr
    ∧ r = (ConcurrentMap.direct M (ConcurrentMap.NewConcurrentMap_struct storage) k h1).2.
Proof.
  intros Hs Hin.
  apply (boot_returns_direct (typed_well_formed M) _ _ _ _ _ _ _ _ _ _ _ _
           (typed_serves M) Hs Hin).
Qed.

Lemma X1_typed_methods_return_map_results_witness :
  ∃ h1,
    Ev (V := ConcurrentMap.code Demo.typed_map) Worker
      (AExec (V := ConcurrentMap.code Demo.typed_map)
         (ConcurrentMap.send_of (ConcurrentMap.Get "a"%string) 10) h1)
    ∈ Demo.typed_run.1
    ∧ (ConcurrentMap.RetGet 1%Z true : result (ConcurrentMap.code Demo.typed_map))
      = (ConcurrentMap.direct Demo.typed_map (ConcurrentMap.NewConcurrentMap_struct 0)
           (ConcurrentMap.Get "a"%string) h1).2.
Proof.
  apply (X1_typed_methods_return_map_results _ _ _ _ _ Demo.typed_map 0 _ _
           Demo.typed_run.1 Demo.typed_run.2 0 (ConcurrentMap.Get "a"%string) 10
           (ConcurrentMap.RetGet 1%Z true)
           (run_or_stay_steps Demo.typed_sched Demo.typed_init)).
  apply (list_elem_of_lookup_2 _ 17). vm_compute. reflexivity.
Defined.

(** X2. Uniform-message coordinator: every method ([String], [Clear],
    [Contains], [Delete], [Get], [Length], [Keys], [Set]) returns to its
    caller the result that the same method of the underlying Map gave when
    the worker executed this caller's request. *)
Theorem X2_uniform_methods_return_map_results
    (Any Map Heap : Type) (M : ChannelConcurrentMap.MapMethods Any Map Heap)
    storage h progs tr st i k ch r :
  steps (ChannelConcurrentMap.NewChannelConcurrentMap M storage h progs) tr st →
  Ev (V := ChannelConcurrentMap.code M) (Caller i)
    (AReturn (V := ChannelConcurrentMap.code M) k ch r) ∈ tr →
  ∃ h1,
    Ev (V := ChannelConcurrentMap.code M) Worker
      (AExec (V := ChannelConcurrentMap.code M) (ChannelConcurrentMap.send_of k ch) h1) ∈ tr
    ∧ r = (ChannelConcurrentMap.direct M
             (ChannelConcurrentMap.NewChannelConcurrentMap_struct storage) k h1).2.
Proof.
  intros Hs Hin.
  apply (boot_returns_direct (uniform_well_formed M) _ _ _ _ _ _ _ _ _ _ _ _
           (uniform_serves M) Hs Hin).
Qed.

Lemma X2_uniform_methods_return_map_results_witness :
  ∃ h1,
    Ev (V := ChannelConcurrentMap.code Demo.uniform_map) Worker
      (AExec (V := ChannelConcurrentMap.code Demo.uniform_map)
         (ChannelConcurrentMap.send_of (ChannelConcurrentMap.Set_ 7%Z 1%Z) 1) h1)
    ∈ Demo.uniform_exited.1
    ∧ (ChannelConcurrentMap.RetPair 0%Z false
       : result (ChannelConcurrentMap.code Demo.uniform_map))
      = (ChannelConcurrentMap.direct Demo.uniform_map
           (ChannelConcurrentMap.NewChannelConcurrentMap_struct 0)
           (ChannelConcurrentMap.Set_ 7%Z 1%Z) h1).2.
Proof.
  apply (X2_uniform_methods_return_map_results _ _ _ Demo.uniform_map 0 _ _
           Demo.uniform_exited.1 Demo.uniform_exited.2 0
           (ChannelConcurrentMap.Set_ 7%Z 1%Z) 1
           (ChannelConcurrentMap.RetPair 0%Z false)
           (run_or_stay_steps Demo.sched_exited Demo.uniform_init)).
  apply (list_elem_of_lookup_2 _ 5). vm_compute. reflexivity.
Defined.

(** X3. [IsEmpty()] of the request-typed coordinator makes one request, on
    the channel of [Length()], and returns true exactly when the length the
    underlying Map reported to the worker for this request is 0. *)
Theorem X3_IsEmpty_is_length_zero
    (Key Value Map Storage Heap : Type)
    (M : ConcurrentMap.MapMethods Key Value Map Storage Heap)
    storage h progs tr st i ch r :
  steps (ConcurrentMap.NewConcurrentMap M storage h progs) tr st →
  Ev (V := ConcurrentMap.code M) (Caller i)
    (AReturn (V := ConcurrentMap.code M) ConcurrentMap.IsEmpty ch r) ∈ tr →
  ∃ h1 b,
    Ev (V := ConcurrentMap.code M) Worker
      (AExec (V := ConcurrentMap.code M) (ConcurrentMap.on_lenCh ch) h1) ∈ tr
    ∧ r = ConcurrentMap.RetBool b
    ∧ (b = true ↔ (ConcurrentMap.Map_Length M storage h1).2 = 0%Z).
Proof.
  intros Hs Hin.
  destruct (X1_typed_methods_return_map_results _ _ _ _ _ M _ _ _ _ _ _ _ _ _ Hs Hin)
    as (h1 & Hex & ->).
  exists h1, ((ConcurrentMap.Map_Length M storage h1).2 =? 0)%Z.
  split; [done|]. simpl.
  destruct (ConcurrentMap.Map_Length M storage h1) as [h' n]. simpl.
  split; [done|]. apply Z.eqb_eq.
Qed.

Lemma X3_IsEmpty_is_length_zero_witness :
  ∃ h1 b,
    Ev (V := ConcurrentMap.code Demo.typed_map) Worker
      (AExec (V := ConcurrentMap.code Demo.typed_map) (ConcurrentMap.on_lenCh 13) h1)
    ∈ Demo.typed_run.1
    ∧ (ConcurrentMap.RetBool true : result (ConcurrentMap.code Demo.typed_map))
      = ConcurrentMap.RetBool b
    ∧ (b = true ↔ (ConcurrentMap.Map_Length Demo.typed_map 0 h1).2 = 0%Z).
Proof.
  apply (X3_IsEmpty_is_length_zero _ _ _ _ _ Demo.typed_map 0 _ _
           Demo.typed_run.1 Demo.typed_run.2 1 13 (ConcurrentMap.RetBool true)
           (run_or_stay_steps Demo.typed_sched Demo.typed_init)).
  apply (list_elem_of_lookup_2 _ 35). vm_compute. reflexivity.
Defined.
